(** * StableHLO to MHLO legalization

    A shallow embedding of
    [mlir_hlo/lib/Dialect/mhlo/transforms/stablehlo_legalize_to_hlo.cc]:
    the attribute translator [convertAttr], the generic conversion pattern
    [StablehloToHloOpConverter::matchAndRewrite] and the registration entry
    point [populateStablehloToHloPatterns]. *)

From Stdlib Require Import ZArith.
From stdpp Require Import base option list strings.

Local Set Warnings "-register-all".
Local Open Scope string_scope.
Local Open Scope Z_scope.
Local Open Scope list_scope.

(** ** Attributes *)

(** The eight enum attribute classes handled by RETURN_CONVERTED_ENUM_ATTR. *)
Inductive EnumName :=
| ComparisonDirection
| ComparisonType
| CustomCallApiVersion
| FftType
| Precision
| RngAlgorithm
| RngDistribution
| Transpose.

(** Parameters of the record-like attribute classes, one getter per
    accessor used by [convertAttr]. Both dialects declare the same fields. *)
Record ChannelHandle := {
  getHandle : Z;
  getType : Z
}.

Record ConvDimensionNumbers := {
  getInputBatchDimension : Z;
  getInputFeatureDimension : Z;
  getInputSpatialDimensions : list Z;
  getKernelInputFeatureDimension : Z;
  getKernelOutputFeatureDimension : Z;
  getKernelSpatialDimensions : list Z;
  getOutputBatchDimension : Z;
  getOutputFeatureDimension : Z;
  getOutputSpatialDimensions : list Z
}.

Record DotDimensionNumbers := {
  getLhsBatchingDimensions : list Z;
  getRhsBatchingDimensions : list Z;
  getLhsContractingDimensions : list Z;
  getRhsContractingDimensions : list Z
}.

Record GatherDimensionNumbers := {
  getOffsetDims : list Z;
  getCollapsedSliceDims : list Z;
  getStartIndexMap : list Z;
  gatherIndexVectorDim : Z
}.

Record ScatterDimensionNumbers := {
  getUpdateWindowDims : list Z;
  getInsertedWindowDims : list Z;
  getScatterDimsToOperandDims : list Z;
  scatterIndexVectorDim : Z
}.

(** [mlir::Attribute] as [convertAttr] sees it: the thirteen StableHLO
    classes it casts to (five records, and the eight enum attributes as
    [stablehlo_EnumAttr] at each [EnumName]), their MHLO counterparts, the
    builtin [ArrayAttr], and every other attribute class, of which the
    function only reads the namespace of the owning dialect. An enum
    attribute carries an enumerator of its enum. *)
Inductive Attribute :=
| stablehlo_ChannelHandleAttr (attr : ChannelHandle)
| stablehlo_EnumAttr (Name : EnumName) (value : nat)
| stablehlo_ConvDimensionNumbersAttr (attr : ConvDimensionNumbers)
| stablehlo_DotDimensionNumbersAttr (attr : DotDimensionNumbers)
| stablehlo_GatherDimensionNumbersAttr (attr : GatherDimensionNumbers)
| stablehlo_ScatterDimensionNumbersAttr (attr : ScatterDimensionNumbers)
| mhlo_ChannelHandleAttr (attr : ChannelHandle)
| mhlo_EnumAttr (Name : EnumName) (value : nat)
| mhlo_ConvDimensionNumbersAttr (attr : ConvDimensionNumbers)
| mhlo_DotDimensionNumbersAttr (attr : DotDimensionNumbers)
| mhlo_GatherDimensionNumbersAttr (attr : GatherDimensionNumbers)
| mhlo_ScatterDimensionNumbersAttr (attr : ScatterDimensionNumbers)
| ArrayAttr (elements : list Attribute)
| OtherAttr (dialect : string) (body : string).

(** [attr.getDialect().getNamespace()]. *)
Definition getNamespace (attr : Attribute) : string :=
  match attr with
  | stablehlo_ChannelHandleAttr _ | stablehlo_EnumAttr _ _
  | stablehlo_ConvDimensionNumbersAttr _ | stablehlo_DotDimensionNumbersAttr _
  | stablehlo_GatherDimensionNumbersAttr _
  | stablehlo_ScatterDimensionNumbersAttr _ => "stablehlo"
  | mhlo_ChannelHandleAttr _ | mhlo_EnumAttr _ _
  | mhlo_ConvDimensionNumbersAttr _ | mhlo_DotDimensionNumbersAttr _
  | mhlo_GatherDimensionNumbersAttr _
  | mhlo_ScatterDimensionNumbersAttr _ => "mhlo"
  | ArrayAttr _ => "builtin"
  | OtherAttr dialect _ => dialect
  end.

(** The StableHLO classes [convertAttr] has a cast for. *)
Definition isRecognized (attr : Attribute) : bool :=
  match attr with
  | stablehlo_ChannelHandleAttr _ | stablehlo_EnumAttr _ _
  | stablehlo_ConvDimensionNumbersAttr _ | stablehlo_DotDimensionNumbersAttr _
  | stablehlo_GatherDimensionNumbersAttr _
  | stablehlo_ScatterDimensionNumbersAttr _ => true
  | _ => false
  end.

Definition isArrayAttr (attr : Attribute) : bool :=
  match attr with
  | ArrayAttr _ => true
  | _ => false
  end.

(** Structural induction that reaches the elements of an [ArrayAttr]. *)
Section AttributeInduction.
Variable P : Attribute → Prop.
Hypothesis Harray : ∀ elements, Forall P elements → P (ArrayAttr elements).
Hypothesis Hleaf : ∀ attr, isArrayAttr attr = false → P attr.

Fixpoint Attribute_nested_ind (attr : Attribute) : P attr :=
  match attr with
  | ArrayAttr elements =>
      Harray elements
        ((fix all (l : list Attribute) : Forall P l :=
            match l with
            | [] => @List.Forall_nil _ P
            | x :: l' => @List.Forall_cons _ P x l' (Attribute_nested_ind x) (all l')
            end) elements)
  | other => Hleaf other eq_refl
  end.
End AttributeInduction.

(** ** Enum helpers *)

(** The symbols of every enum of the two dialects, in declaration order.
    They come from the dialects' generated declarations, which
    stablehlo_legalize_to_hlo.cc only includes. An enumerator is modelled by
    its position in the declaration of its enum. *)
Class EnumSchema := {
  stablehloEnumCases : EnumName → list string;
  mhloEnumCases : EnumName → list string
}.

(** Modelled from the spec: the generated helpers [stringify##Name] and
    [symbolize##Name] are only called by the pass, not defined in it. The spec has
    the source symbol stringified and then looked up among the target
    symbols of identical name, the lookup failing when there is none.
    [stringifyEnum] gives the name of an enumerator (the empty string for a
    value that is no enumerator), [symbolizeEnum] the enumerator declared
    under a name. *)
Definition stringifyEnum (cases : list string) (value : nat) : string :=
  default "" (cases !! value).

Definition symbolizeEnum (cases : list string) (str : string) : option nat :=
  fst <$> list_find (λ name, name = str) cases.

Definition stablehlo_stringify {ES : EnumSchema} (Name : EnumName) (value : nat)
    : string :=
  stringifyEnum (stablehloEnumCases Name) value.

Definition mhlo_symbolize {ES : EnumSchema} (Name : EnumName) (str : string)
    : option nat :=
  symbolizeEnum (mhloEnumCases Name) str.

Definition mhlo_stringify {ES : EnumSchema} (Name : EnumName) (value : nat)
    : string :=
  stringifyEnum (mhloEnumCases Name) value.

(** ** convertAttr *)

(** The macro RETURN_CONVERTED_ENUM_ATTR, applied to [attr.getValue()]. *)
Definition RETURN_CONVERTED_ENUM_ATTR {ES : EnumSchema}
    (Name : EnumName) (attr_getValue : nat) : option Attribute :=
  let stablehloValue := stablehlo_stringify Name attr_getValue in
  let hloValue := mhlo_symbolize Name stablehloValue in
  match hloValue with
  | None => None
  | Some hloValue_value => Some (mhlo_EnumAttr Name hloValue_value)
  end.

(** The loop shared by [convertAttr] and [matchAndRewrite]: convert the
    elements in order, give up at the first one that does not convert,
    [push_back] every converted one. *)
Definition convertEach {A B : Type} (convert : A → option B)
    : list A → list B → option (list B) :=
  fix loop (stablehloAttrs : list A) (hloAttrs : list B) :=
    match stablehloAttrs with
    | [] => Some hloAttrs
    | stablehloAttr :: rest =>
        match convert stablehloAttr with
        | None => None
        | Some hloAttr => loop rest (hloAttrs ++ [hloAttr])
        end
    end.

(** A null [Attribute] result is [None]. *)
Fixpoint convertAttr {ES : EnumSchema} (stablehloAttr : Attribute)
    : option Attribute :=
  match stablehloAttr with
  | stablehlo_ChannelHandleAttr attr =>
      Some (mhlo_ChannelHandleAttr
              {| getHandle := getHandle attr; getType := getType attr |})
  | stablehlo_EnumAttr Name value => RETURN_CONVERTED_ENUM_ATTR Name value
  | stablehlo_ConvDimensionNumbersAttr attr =>
      Some (mhlo_ConvDimensionNumbersAttr
              {| getInputBatchDimension := getInputBatchDimension attr;
                 getInputFeatureDimension := getInputFeatureDimension attr;
                 getInputSpatialDimensions := getInputSpatialDimensions attr;
                 getKernelInputFeatureDimension :=
                   getKernelInputFeatureDimension attr;
                 getKernelOutputFeatureDimension :=
                   getKernelOutputFeatureDimension attr;
                 getKernelSpatialDimensions := getKernelSpatialDimensions attr;
                 getOutputBatchDimension := getOutputBatchDimension attr;
                 getOutputFeatureDimension := getOutputFeatureDimension attr;
                 getOutputSpatialDimensions :=
                   getOutputSpatialDimensions attr |})
  | stablehlo_DotDimensionNumbersAttr attr =>
      Some (mhlo_DotDimensionNumbersAttr
              {| getLhsBatchingDimensions := getLhsBatchingDimensions attr;
                 getRhsBatchingDimensions := getRhsBatchingDimensions attr;
                 getLhsContractingDimensions :=
                   getLhsContractingDimensions attr;
                 getRhsContractingDimensions :=
                   getRhsContractingDimensions attr |})
  | stablehlo_GatherDimensionNumbersAttr attr =>
      Some (mhlo_GatherDimensionNumbersAttr
              {| getOffsetDims := getOffsetDims attr;
                 getCollapsedSliceDims := getCollapsedSliceDims attr;
                 getStartIndexMap := getStartIndexMap attr;
                 gatherIndexVectorDim := gatherIndexVectorDim attr |})
  | stablehlo_ScatterDimensionNumbersAttr attr =>
      Some (mhlo_ScatterDimensionNumbersAttr
              {| getUpdateWindowDims := getUpdateWindowDims attr;
                 getInsertedWindowDims := getInsertedWindowDims attr;
                 getScatterDimsToOperandDims :=
                   getScatterDimsToOperandDims attr;
                 scatterIndexVectorDim := scatterIndexVectorDim attr |})
  | _ =>
      if bool_decide (getNamespace stablehloAttr = "stablehlo") then None
      else
        match stablehloAttr with
        | ArrayAttr stablehloAttrs =>
            match convertEach convertAttr stablehloAttrs [] with
            | None => None
            | Some hloAttrs => Some (ArrayAttr hloAttrs)
            end
        | _ => Some stablehloAttr
        end
  end.

(** ** Operations *)

(** Types, values and blocks are handles the pass never looks into. *)
Inductive Type_ := mkType (repr : string).
Inductive Value := mkValue (id : nat).
Inductive Block := mkBlock (id : nat).

Record OperationName := {
  getDialectNamespace : string;
  stripDialect : string
}.

#[global] Instance OperationName_eq_dec : EqDecision OperationName.
Proof. solve_decision. Defined.

Definition stablehlo_CaseOp : OperationName :=
  {| getDialectNamespace := "stablehlo"; stripDialect := "case" |}.
Definition mhlo_CaseOp : OperationName :=
  {| getDialectNamespace := "mhlo"; stripDialect := "case" |}.

(** A [NamedAttribute] is a name ([getName]) with a value ([getValue]). *)
Definition NamedAttribute : Type := string * Attribute.

(** An operation; a region is the list of its blocks. *)
Record Operation := {
  getName : OperationName;
  getResultTypes : list Type_;
  getOperands : list Value;
  getAttrs : list NamedAttribute;
  getRegions : list (list Block)
}.

(** [stablehlo::CaseOp::branches()]: the variadic region group of the case
    operation, which declares no other region. *)
Definition branches (op : Operation) : list (list Block) := getRegions op.

(** What the pass takes from the operation declarations of the two
    dialects: the number of regions each MHLO operation declares, and
    the operation list GET_OP_LIST of StablehloOps.cpp.inc. *)
Class OpSchema := {
  hloNumRegions : OperationName → nat;
  GET_OP_LIST : list OperationName
}.

(** Modelled from the spec: the binding [StablehloToHloOp] of
    map_stablehlo_to_hlo_op.h is not among the sources. The spec describes
    it as a 1:1 mapping from each source operation kind to its counterpart
    in the isomorphic sibling dialect (a "compare" becomes a "compare"). *)
Definition StablehloToHloOp (StablehloOpTy : OperationName) : OperationName :=
  {| getDialectNamespace := "mhlo"; stripDialect := stripDialect StablehloOpTy |}.

(** Modelled from the spec: the generated generic builders of the MHLO
    operations are not among the sources. The spec has the replacement
    constructed from the translated result types, operands and attribute
    pairs, the case operation taking its number of branches as a further
    constructor argument. A new operation owns empty regions. *)
Definition buildWithRegions (OpTy : OperationName) (resultTypes : list Type_)
    (operands : list Value) (attributes : list NamedAttribute)
    (numRegions : nat) : Operation :=
  {| getName := OpTy;
     getResultTypes := resultTypes;
     getOperands := operands;
     getAttrs := attributes;
     getRegions := replicate numRegions [] |}.

Definition build {OS : OpSchema} (OpTy : OperationName) (resultTypes : list Type_)
    (operands : list Value) (attributes : list NamedAttribute) : Operation :=
  buildWithRegions OpTy resultTypes operands attributes (hloNumRegions OpTy).

(** ** The rewriter *)

(** The state a pattern acts on: the operations, addressed by their position
    (an [Operation*] is an index), and the replacements recorded so far.
    A replaced operation stays in place until the conversion driver erases
    it. *)
Record ConversionPatternRewriter := {
  operations : list Operation;
  replacements : list (nat * nat)
}.

(** A region of an operation: the operation and the region number. *)
Definition RegionRef : Type := nat * nat.

Definition regionsOf (rewriter : ConversionPatternRewriter) (op : nat)
    : list RegionRef :=
  match operations rewriter !! op with
  | Some o => (λ i, (op, i)) <$> seq 0 (length (getRegions o))
  | None => []
  end.

Definition getBlocks (rewriter : ConversionPatternRewriter)
    (region : RegionRef) : option (list Block) :=
  match operations rewriter !! region.1 with
  | Some o => getRegions o !! region.2
  | None => None
  end.

Definition withRegions (o : Operation) (regions : list (list Block))
    : Operation :=
  {| getName := getName o;
     getResultTypes := getResultTypes o;
     getOperands := getOperands o;
     getAttrs := getAttrs o;
     getRegions := regions |}.

Definition setBlocks (region : RegionRef) (blocks : list Block)
    (rewriter : ConversionPatternRewriter) : ConversionPatternRewriter :=
  {| operations :=
       alter (λ o, withRegions o (<[region.2 := blocks]> (getRegions o)))
             region.1 (operations rewriter);
     replacements := replacements rewriter |}.

(** [rewriter.replaceOpWithNewOp<OpTy>(op, args...)]: create the operation
    built from [args], record that it replaces [op], return it. *)
Definition replaceOpWithNewOp (op : nat) (state : Operation)
    (rewriter : ConversionPatternRewriter)
    : nat * ConversionPatternRewriter :=
  let newOp := length (operations rewriter) in
  (newOp, {| operations := operations rewriter ++ [state];
             replacements := replacements rewriter ++ [(op, newOp)] |}).

(** [rewriter.inlineRegionBefore(region, parent, parent.end())]: the blocks
    of [region] are spliced out of it and onto the end of [parent]. *)
Definition inlineRegionBefore (region parent : RegionRef)
    (rewriter : ConversionPatternRewriter) : ConversionPatternRewriter :=
  match getBlocks rewriter region, getBlocks rewriter parent with
  | Some blocks, Some parentBlocks =>
      setBlocks region [] (setBlocks parent (parentBlocks ++ blocks) rewriter)
  | _, _ => rewriter
  end.

(** ** The conversion pattern *)

Inductive LogicalResult := success | failure.

(** The injected type converter. *)
Record TypeConverter := {
  convertTypes : list Type_ → option (list Type_)
}.

Inductive MLIRContext := mkContext (id : nat).

(** An instance of the class template [StablehloToHloOpConverter]: the
    template argument and what the inherited constructor stores. *)
Record StablehloToHloOpConverter := {
  StablehloOpTy : OperationName;
  getTypeConverter : TypeConverter;
  getContext : MLIRContext
}.

(** The body of the loop over [stablehloOp->getAttrs()]. *)
Definition convertNamedAttr {ES : EnumSchema} (stablehloAttr : NamedAttribute)
    : option NamedAttribute :=
  match convertAttr stablehloAttr.2 with
  | None => None
  | Some hloAttr => Some (stablehloAttr.1, hloAttr)
  end.

(** The loop over [llvm::zip(stablehloOp->getRegions(), hloOp->getRegions())]. *)
Definition inlineRegions (pairs : list (RegionRef * RegionRef))
    (rewriter : ConversionPatternRewriter) : ConversionPatternRewriter :=
  foldl (λ rw p, inlineRegionBefore p.1 p.2 rw) rewriter pairs.

(** [matchAndRewrite(stablehloOp, adaptor, rewriter)], with the operands of
    the adaptor for [adaptor]. *)
Definition matchAndRewrite {ES : EnumSchema} {OS : OpSchema}
    (this : StablehloToHloOpConverter) (stablehloOp : nat)
    (adaptor_getOperands : list Value) (rewriter : ConversionPatternRewriter)
    : LogicalResult * ConversionPatternRewriter :=
  match operations rewriter !! stablehloOp with
  | None => (failure, rewriter)
  | Some op =>
      match convertTypes (getTypeConverter this) (getResultTypes op) with
      | None => (failure, rewriter)
      | Some hloTypes =>
          let hloOperands := adaptor_getOperands in
          match convertEach convertNamedAttr (getAttrs op) [] with
          | None => (failure, rewriter)
          | Some hloAttrs =>
              let '(hloOp, rewriter') :=
                if bool_decide (StablehloOpTy this = stablehlo_CaseOp) then
                  replaceOpWithNewOp stablehloOp
                    (buildWithRegions mhlo_CaseOp hloTypes hloOperands hloAttrs
                       (length (branches op)))
                    rewriter
                else
                  replaceOpWithNewOp stablehloOp
                    (build (StablehloToHloOp (StablehloOpTy this))
                       hloTypes hloOperands hloAttrs)
                    rewriter in
              (success,
               inlineRegions
                 (zip (regionsOf rewriter' stablehloOp)
                      (regionsOf rewriter' hloOp))
                 rewriter')
          end
      end
  end.

(** ** Registration *)

(** The patterns of a [RewritePatternSet], in the order they were added. *)
Definition RewritePatternSet : Type := list StablehloToHloOpConverter.

(** The variadic template: [patterns->add] of one converter per type of the
    pack, each constructed from the converter and the context. *)
Definition populateStablehloToHloPatternsFor
    (StablehloOpTypes : list OperationName) (patterns : RewritePatternSet)
    (converter : TypeConverter) (context : MLIRContext) : RewritePatternSet :=
  patterns ++
  ((λ OpTy, {| StablehloOpTy := OpTy;
               getTypeConverter := converter;
               getContext := context |}) <$> StablehloOpTypes).

(** The entry point, instantiating the template at GET_OP_LIST. *)
Definition populateStablehloToHloPatterns {OS : OpSchema}
    (patterns : RewritePatternSet) (converter : TypeConverter)
    (context : MLIRContext) : RewritePatternSet :=
  populateStablehloToHloPatternsFor GET_OP_LIST patterns converter context.

(** ** The region lists after the loop over the zipped regions

    [emptied src dst] is what is left of the source regions [src] and
    [received src dst] what the regions [dst] of the new operation hold once
    [inlineRegionBefore] has run on every pair of the zip. *)
Fixpoint emptied (src dst : list (list Block)) : list (list Block) :=
  match src, dst with
  | _ :: src', _ :: dst' => [] :: emptied src' dst'
  | _, _ => src
  end.

Fixpoint received (src dst : list (list Block)) : list (list Block) :=
  match src, dst with
  | blocks :: src', parentBlocks :: dst' =>
      (parentBlocks ++ blocks) :: received src' dst'
  | _, _ => dst
  end.

(** A rewriter whose operations are [ops] but for the regions of the
    operations [src] and [dst]. *)
Definition withRegionsAt (ops : list Operation) (repl : list (nat * nat))
    (src dst : nat) (so do : Operation) (srcRegions dstRegions : list (list Block))
    : ConversionPatternRewriter :=
  {| operations :=
       <[src := withRegions so srcRegions]>
         (<[dst := withRegions do dstRegions]> ops);
     replacements := repl |}.

(** The operation [matchAndRewrite] hands to [replaceOpWithNewOp]. *)
Definition newOperation {OS : OpSchema} (this : StablehloToHloOpConverter)
    (op : Operation) (hloTypes : list Type_) (hloOperands : list Value)
    (hloAttrs : list NamedAttribute) : Operation :=
  if bool_decide (StablehloOpTy this = stablehlo_CaseOp) then
    buildWithRegions mhlo_CaseOp hloTypes hloOperands hloAttrs
      (length (branches op))
  else
    build (StablehloToHloOp (StablehloOpTy this)) hloTypes hloOperands hloAttrs.

(** ** What a translated attribute still holds *)

(** An attribute of the StableHLO dialect, or an array holding one at any
    depth. *)
Fixpoint mentionsStablehlo (attr : Attribute) : bool :=
  bool_decide (getNamespace attr = "stablehlo")
  || match attr with
     | ArrayAttr elements => existsb mentionsStablehlo elements
     | _ => false
     end.

(** The attributes that are no arrays, reached through any depth of
    [ArrayAttr], from left to right. *)
Fixpoint leaves (attr : Attribute) : list Attribute :=
  match attr with
  | ArrayAttr elements => flat_map leaves elements
  | _ => [attr]
  end.

(** An attribute the two dialects' declarations account for: an enum
    attribute holding a declared enumerator, or an attribute of any class
    but the ones of the stablehlo dialect that [convertAttr] has no cast
    for. *)
Definition isKnown {ES : EnumSchema} (attr : Attribute) : bool :=
  match attr with
  | stablehlo_EnumAttr Name value =>
      bool_decide (value < length (stablehloEnumCases Name))%nat
  | OtherAttr dialect _ => bool_decide (dialect ≠ "stablehlo")
  | _ => true
  end.

(** The number of regions [matchAndRewrite] has the new operation built
    with. *)
Definition newRegionCount {OS : OpSchema} (this : StablehloToHloOpConverter)
    (op : Operation) : nat :=
  if bool_decide (StablehloOpTy this = stablehlo_CaseOp)
  then length (branches op)
  else hloNumRegions (StablehloToHloOp (StablehloOpTy this)).

(** Why the translation of an attribute that is no array fails: it is of
    the stablehlo namespace and of no class [convertAttr] casts to, or it is
    an enum attribute whose symbol the mhlo enum does not declare. *)
Definition failsAtLeaf {ES : EnumSchema} (attr : Attribute) : Prop :=
  (getNamespace attr = "stablehlo" ∧ isRecognized attr = false)
  ∨ ∃ Name value,
      attr = stablehlo_EnumAttr Name value
      ∧ stablehlo_stringify Name value ∉ mhloEnumCases Name.

(** ** Sample schema

    A small instance of the schema tables, for running the definitions. *)
Module Sample.

Definition enums : EnumSchema :=
  {| stablehloEnumCases Name :=
       match Name with
       | ComparisonDirection => ["EQ"; "NE"; "GE"; "GT"; "LE"; "LT"]
       | ComparisonType => ["NOTYPE"; "FLOAT"; "TOTALORDER"; "SIGNED"; "UNSIGNED"]
       | CustomCallApiVersion =>
           ["API_VERSION_UNSPECIFIED"; "API_VERSION_ORIGINAL";
            "API_VERSION_STATUS_RETURNING";
            "API_VERSION_STATUS_RETURNING_UNIFIED"]
       | FftType => ["FFT"; "IFFT"; "RFFT"; "IRFFT"]
       | Precision => ["DEFAULT"; "HIGH"; "HIGHEST"]
       | RngAlgorithm => ["DEFAULT"; "THREE_FRY"; "PHILOX"]
       | RngDistribution => ["UNIFORM"; "NORMAL"]
       | Transpose => ["TRANSPOSE_INVALID"; "NO_TRANSPOSE"; "TRANSPOSE"; "ADJOINT"]
       end;
     mhloEnumCases Name :=
       match Name with
       | ComparisonDirection => ["EQ"; "NE"; "GE"; "GT"; "LE"; "LT"]
       | ComparisonType => ["NOTYPE"; "FLOAT"; "TOTALORDER"; "SIGNED"; "UNSIGNED"]
       | CustomCallApiVersion =>
           ["API_VERSION_UNSPECIFIED"; "API_VERSION_ORIGINAL";
            "API_VERSION_STATUS_RETURNING";
            "API_VERSION_STATUS_RETURNING_UNIFIED"]
       | FftType => ["FFT"; "IFFT"; "RFFT"; "IRFFT"]
       | Precision => ["DEFAULT"; "HIGH"; "HIGHEST"; "PACKED_NIBBLE"]
       | RngAlgorithm => ["DEFAULT"; "THREE_FRY"; "PHILOX"]
       | RngDistribution => ["UNIFORM"; "NORMAL"]
       | Transpose => ["TRANSPOSE_INVALID"; "NO_TRANSPOSE"; "TRANSPOSE"; "ADJOINT"]
       end |}.

(** A source dialect one symbol ahead of the target: FFT type "DCT" has no
    target counterpart. *)
Definition skewedEnums : EnumSchema :=
  {| stablehloEnumCases Name :=
       match Name with
       | FftType => ["FFT"; "IFFT"; "RFFT"; "IRFFT"; "DCT"]
       | _ => stablehloEnumCases (EnumSchema := enums) Name
       end;
     mhloEnumCases := mhloEnumCases (EnumSchema := enums) |}.

Definition direction_GE : Attribute := stablehlo_EnumAttr ComparisonDirection 2.

Definition dot : DotDimensionNumbers :=
  {| getLhsBatchingDimensions := [0];
     getRhsBatchingDimensions := [0];
     getLhsContractingDimensions := [2];
     getRhsContractingDimensions := [1] |}.

Definition i64_7 : Attribute := OtherAttr "builtin" "7 : i64".

Definition nested : Attribute :=
  ArrayAttr [direction_GE; ArrayAttr [stablehlo_DotDimensionNumbersAttr dot; i64_7];
             ArrayAttr []].

(** Operations: two region-carrying kinds and region-free ones. *)
Definition ops : OpSchema :=
  {| hloNumRegions OpTy :=
       if bool_decide (stripDialect OpTy = "while") then 2%nat
       else if bool_decide (stripDialect OpTy = "reduce") then 1%nat
       else 0%nat;
     GET_OP_LIST :=
       (λ name, {| getDialectNamespace := "stablehlo"; stripDialect := name |})
         <$> ["add"; "case"; "compare"; "reduce"; "while"] |}.

(** A converter of result types that renames the token type and knows no
    counterpart of one type. *)
Definition converter : TypeConverter :=
  {| convertTypes :=
       mapM (λ t, match t with
                  | mkType repr =>
                      if bool_decide (repr = "!stablehlo.token")
                      then Some (mkType "!mhlo.token")
                      else if bool_decide (repr = "!stablehlo.unknown")
                      then None
                      else Some t
                  end) |}.

Definition pattern (name : string) : StablehloToHloOpConverter :=
  {| StablehloOpTy :=
       {| getDialectNamespace := "stablehlo"; stripDialect := name |};
     getTypeConverter := converter;
     getContext := mkContext 0 |}.

Definition compareOp : Operation :=
  {| getName := {| getDialectNamespace := "stablehlo"; stripDialect := "compare" |};
     getResultTypes := [mkType "tensor<4xi1>"];
     getOperands := [mkValue 0; mkValue 1];
     getAttrs := [("comparison_direction", direction_GE)];
     getRegions := [] |}.

Definition caseOp : Operation :=
  {| getName := stablehlo_CaseOp;
     getResultTypes := [mkType "tensor<f32>"; mkType "!stablehlo.token"];
     getOperands := [mkValue 2];
     getAttrs := [];
     getRegions := [[mkBlock 0]; [mkBlock 1; mkBlock 2]; [mkBlock 3]] |}.

(** An operation with an attribute of a stablehlo class the translator
    does not know. *)
Definition oddOp : Operation :=
  {| getName := {| getDialectNamespace := "stablehlo"; stripDialect := "add" |};
     getResultTypes := [mkType "tensor<f32>"];
     getOperands := [mkValue 3; mkValue 4];
     getAttrs := [("known", i64_7); ("odd", OtherAttr "stablehlo" "#stablehlo.new")];
     getRegions := [] |}.

(** An operation with a result type the converter rejects. *)
Definition untypedOp : Operation :=
  {| getName := {| getDialectNamespace := "stablehlo"; stripDialect := "add" |};
     getResultTypes := [mkType "!stablehlo.unknown"];
     getOperands := [mkValue 3; mkValue 4];
     getAttrs := [];
     getRegions := [] |}.

Definition whileOp : Operation :=
  {| getName := {| getDialectNamespace := "stablehlo"; stripDialect := "while" |};
     getResultTypes := [mkType "tensor<i32>"];
     getOperands := [mkValue 5];
     getAttrs := [];
     getRegions := [[mkBlock 4]; [mkBlock 5]] |}.

Definition rewriter : ConversionPatternRewriter :=
  {| operations := [compareOp; caseOp; oddOp; untypedOp; whileOp];
     replacements := [] |}.

(** The translation of [nested], and an array with an attribute of an
    unhandled stablehlo class two arrays deep. *)
Definition nestedHlo : Attribute :=
  ArrayAttr [mhlo_EnumAttr ComparisonDirection 2;
             ArrayAttr [mhlo_DotDimensionNumbersAttr dot; i64_7];
             ArrayAttr []].

Definition brokenNested : Attribute :=
  ArrayAttr [i64_7; ArrayAttr [OtherAttr "stablehlo" "#stablehlo.new"]].

End Sample.

(** * Properties *)

(** ** The conversion loop *)

Lemma convertEach_mapM {A B : Type} (convert : A → option B)
    (stablehloAttrs : list A) (hloAttrs : list B) :
  convertEach convert stablehloAttrs hloAttrs
  = (hloAttrs ++.) <$> mapM convert stablehloAttrs.
Proof.
  revert hloAttrs.
  induction stablehloAttrs as [|x rest IH]; intros acc; simpl.
  - by rewrite app_nil_r.
  - destruct (convert x) as [y|]; simpl; [|done].
    rewrite IH. destruct (mapM convert rest) as [ys|]; simpl; [|done].
    by rewrite <- app_assoc.
Qed.

Lemma convertEach_nil_mapM {A B : Type} (convert : A → option B)
    (stablehloAttrs : list A) :
  convertEach convert stablehloAttrs [] = mapM convert stablehloAttrs.
Proof.
  rewrite convertEach_mapM. by destruct (mapM convert stablehloAttrs).
Qed.

Lemma mapM_None_iff {A B : Type} (convert : A → option B) (l : list A) :
  mapM convert l = None ↔ ∃ x, x ∈ l ∧ convert x = None.
Proof.
  by rewrite mapM_None, Exists_exists.
Qed.

Section AttributeTranslator.
Context {ES : EnumSchema}.

Lemma convertAttr_ArrayAttr (stablehloAttrs : list Attribute) :
  convertAttr (ArrayAttr stablehloAttrs)
  = ArrayAttr <$> mapM convertAttr stablehloAttrs.
Proof.
  simpl. rewrite convertEach_nil_mapM.
  by destruct (mapM convertAttr stablehloAttrs).
Qed.

Lemma symbolizeEnum_Some (cases : list string) (str : string) (value : nat) :
  symbolizeEnum cases str = Some value → cases !! value = Some str.
Proof.
  unfold symbolizeEnum. intros Hfind.
  apply fmap_Some in Hfind as [[i name] [Hfind ->]].
  apply list_find_Some in Hfind as (Hi & -> & _). done.
Qed.

Lemma symbolizeEnum_None (cases : list string) (str : string) :
  symbolizeEnum cases str = None ↔ str ∉ cases.
Proof.
  unfold symbolizeEnum. rewrite fmap_None, list_find_None, Forall_forall.
  split.
  - intros Hall Hin. by apply (Hall str).
  - intros Hnot name Hin ->. done.
Qed.

Lemma RETURN_CONVERTED_ENUM_ATTR_eq (Name : EnumName) (value : nat) :
  RETURN_CONVERTED_ENUM_ATTR Name value
  = mhlo_EnumAttr Name
      <$> mhlo_symbolize Name (stablehlo_stringify Name value).
Proof.
  unfold RETURN_CONVERTED_ENUM_ATTR.
  by destruct (mhlo_symbolize Name (stablehlo_stringify Name value)).
Qed.

(** C3: an enum attribute of any of the eight enums translates to the
    result of symbolizing, in the target enum, the string of its source
    symbol; a result is the target symbol declared under exactly that name;
    and the translation fails if and only if the target enum declares no
    symbol of that name. *)
Theorem convertAttr_enum_lookup (Name : EnumName) (value : nat) :
  convertAttr (stablehlo_EnumAttr Name value)
  = mhlo_EnumAttr Name
      <$> mhlo_symbolize Name (stablehlo_stringify Name value)
  ∧ (∀ hloAttr,
       convertAttr (stablehlo_EnumAttr Name value) = Some hloAttr →
       ∃ hloValue,
         hloAttr = mhlo_EnumAttr Name hloValue
         ∧ mhloEnumCases Name !! hloValue
           = Some (stablehlo_stringify Name value))
  ∧ (convertAttr (stablehlo_EnumAttr Name value) = None
     ↔ stablehlo_stringify Name value ∉ mhloEnumCases Name).
Proof.
  simpl. rewrite RETURN_CONVERTED_ENUM_ATTR_eq.
  split; [done|split].
  - intros hloAttr [hloValue [Hsym ->]]%fmap_Some.
    exists hloValue. split; [done|]. by apply symbolizeEnum_Some.
  - rewrite fmap_None. apply symbolizeEnum_None.
Qed.

(** C4: an attribute of the stablehlo namespace that is none of the
    classes the translator casts to has no translation; in particular it is
    not returned as it is. *)
Theorem convertAttr_unrecognized_fails (stablehloAttr : Attribute) :
  getNamespace stablehloAttr = "stablehlo" →
  isRecognized stablehloAttr = false →
  convertAttr stablehloAttr = None
  ∧ convertAttr stablehloAttr ≠ Some stablehloAttr.
Proof.
  intros Hns Hrec.
  assert (convertAttr stablehloAttr = None) as ->; [|done].
  destruct stablehloAttr; simpl in *; try discriminate.
  by rewrite bool_decide_eq_true_2.
Qed.

(** C5: an array attribute translates to the array of the translations of
    its elements: the result has the length of the source and holds at each
    index the translation of the source element at that index, and it
    exists as soon as every element translates; the empty array translates
    to the empty array; the translation fails if an element's fails. *)
Theorem convertAttr_array_elementwise (stablehloAttrs : list Attribute) :
  (∀ hloAttr,
     convertAttr (ArrayAttr stablehloAttrs) = Some hloAttr ↔
     ∃ hloAttrs,
       hloAttr = ArrayAttr hloAttrs
       ∧ length hloAttrs = length stablehloAttrs
       ∧ ∀ i stablehloAttr,
           stablehloAttrs !! i = Some stablehloAttr →
           ∃ h, convertAttr stablehloAttr = Some h ∧ hloAttrs !! i = Some h)
  ∧ ((∀ stablehloAttr,
        stablehloAttr ∈ stablehloAttrs → is_Some (convertAttr stablehloAttr)) →
     is_Some (convertAttr (ArrayAttr stablehloAttrs)))
  ∧ convertAttr (ArrayAttr []) = Some (ArrayAttr [])
  ∧ ((∃ stablehloAttr,
        stablehloAttr ∈ stablehloAttrs ∧ convertAttr stablehloAttr = None) →
     convertAttr (ArrayAttr stablehloAttrs) = None).
Proof.
  rewrite convertAttr_ArrayAttr. repeat split.
  - intros [hloAttrs [Hm ->]]%fmap_Some. exists hloAttrs.
    apply mapM_Some in Hm. split; [done|split].
    + symmetry. by eapply Forall2_length.
    + intros i x Hx.
      destruct (Forall2_lookup_l _ _ _ _ _ Hm Hx) as (h & Hh & Hc). eauto.
  - intros (hloAttrs & -> & Hlen & Hidx). apply fmap_Some. exists hloAttrs.
    split; [|done]. apply mapM_Some, Forall2_same_length_lookup.
    split; [done|]. intros i x y Hx Hy.
    destruct (Hidx i x Hx) as (h & Hc & Hh). congruence.
  - intros Hall. apply fmap_is_Some, mapM_is_Some, Forall_forall. done.
  - intros (x & Hin & Hx). apply fmap_None, mapM_None_iff. eauto.
Qed.

(** C6: an attribute outside the stablehlo namespace that is no array is
    translated to itself, while an array, which is outside that namespace
    too, is translated element by element: its result holds translated
    elements, not the array as it was. *)
Theorem convertAttr_foreign_identity :
  (∀ attr,
     getNamespace attr ≠ "stablehlo" → isArrayAttr attr = false →
     convertAttr attr = Some attr)
  ∧ (∀ elements,
       getNamespace (ArrayAttr elements) ≠ "stablehlo"
       ∧ convertAttr (ArrayAttr elements)
         = ArrayAttr <$> mapM convertAttr elements)
  ∧ (∀ Name value hloValue,
       mhlo_symbolize Name (stablehlo_stringify Name value) = Some hloValue →
       convertAttr (ArrayAttr [stablehlo_EnumAttr Name value])
       = Some (ArrayAttr [mhlo_EnumAttr Name hloValue])).
Proof.
  split; [|split].
  - intros attr Hns Harr.
    destruct attr; simpl in *; try done.
    by rewrite bool_decide_eq_false_2.
  - intros elements. split; [done|]. apply convertAttr_ArrayAttr.
  - intros Name value hloValue Hsym. rewrite convertAttr_ArrayAttr. simpl.
    rewrite RETURN_CONVERTED_ENUM_ATTR_eq, Hsym. done.
Qed.

(** C8: when the string of a source symbol names a symbol of the target
    enum, the enum attribute built from the source symbol translates to a
    target enum attribute whose symbol stringifies to that same string. *)
Theorem convertAttr_enum_round_trip (Name : EnumName) (value : nat) :
  stablehlo_stringify Name value ∈ mhloEnumCases Name →
  ∃ hloValue,
    convertAttr (stablehlo_EnumAttr Name value)
    = Some (mhlo_EnumAttr Name hloValue)
    ∧ mhlo_stringify Name hloValue = stablehlo_stringify Name value.
Proof.
  intros Hknown. simpl. rewrite RETURN_CONVERTED_ENUM_ATTR_eq.
  destruct (mhlo_symbolize Name (stablehlo_stringify Name value))
    as [hloValue|] eqn:Hsym.
  - exists hloValue. split; [done|].
    apply symbolizeEnum_Some in Hsym.
    unfold mhlo_stringify, stringifyEnum. by rewrite Hsym.
  - by apply symbolizeEnum_None in Hsym.
Qed.

Lemma existsb_mentions_false (hloAttrs : list Attribute) :
  Forall (λ h, mentionsStablehlo h = false) hloAttrs →
  existsb mentionsStablehlo hloAttrs = false.
Proof.
  induction 1 as [|h hs Hh _ IH]; simpl; [done|]. by rewrite Hh, IH.
Qed.

(** C10: a translation that succeeds yields an attribute that is not of the
    stablehlo namespace and, when it is an array, holds no attribute of
    that namespace at any depth; an attribute of a recognized stablehlo
    class is translated to an attribute of the mhlo namespace. *)
Theorem convertAttr_leaves_no_stablehlo (stablehloAttr hloAttr : Attribute) :
  convertAttr stablehloAttr = Some hloAttr →
  getNamespace hloAttr ≠ "stablehlo"
  ∧ mentionsStablehlo hloAttr = false
  ∧ (isRecognized stablehloAttr = true → getNamespace hloAttr = "mhlo").
Proof.
  intros Hc.
  cut (mentionsStablehlo hloAttr = false
       ∧ (isRecognized stablehloAttr = true → getNamespace hloAttr = "mhlo")).
  { intros [Hm Hr]. split; [|done].
    destruct hloAttr; simpl in Hm; try done.
    apply orb_false_elim in Hm as [Hm _].
    by apply bool_decide_eq_false in Hm. }
  revert hloAttr Hc.
  induction stablehloAttr as [elements IH|attr Hleaf]
    using Attribute_nested_ind; intros hloAttr Hc.
  - rewrite convertAttr_ArrayAttr in Hc.
    apply fmap_Some in Hc as [hloAttrs [Hm ->]]. split; [|done].
    simpl. apply existsb_mentions_false.
    apply mapM_Some in Hm.
    induction Hm as [|x h xs hs Hx _ IHm]; [done|].
    apply Forall_cons in IH as [IHx IHxs].
    constructor; [by apply (IHx h)|by apply IHm].
  - destruct attr; simpl in *; try discriminate;
      try (injection Hc as <-; done).
    + rewrite RETURN_CONVERTED_ENUM_ATTR_eq in Hc.
      apply fmap_Some in Hc as [hloValue [_ ->]]. done.
    + case_bool_decide as Hns; [done|]. injection Hc as <-.
      simpl. by rewrite bool_decide_eq_false_2.
Qed.

End AttributeTranslator.

(** ** The rewriter *)

Lemma withRegions_getRegions (o : Operation) : withRegions o (getRegions o) = o.
Proof. by destruct o. Qed.

Lemma inlineRegions_cons (p : RegionRef * RegionRef)
    (pairs : list (RegionRef * RegionRef)) (rewriter : ConversionPatternRewriter) :
  inlineRegions (p :: pairs) rewriter
  = inlineRegions pairs (inlineRegionBefore p.1 p.2 rewriter).
Proof. done. Qed.

Lemma emptied_replicate (src : list (list Block)) :
  emptied src (replicate (length src) []) = replicate (length src) [].
Proof. induction src as [|blocks src IH]; simpl; [done|]. by rewrite IH. Qed.

Lemma received_replicate (src : list (list Block)) :
  received src (replicate (length src) []) = src.
Proof. induction src as [|blocks src IH]; simpl; [done|]. by rewrite IH. Qed.

Section Rewriter.
Variables (ops0 : list Operation) (repl : list (nat * nat)).
Variables (src dst : nat) (so do : Operation).
Hypothesis Hne : src ≠ dst.
Hypothesis Hsrc : (src < length ops0)%nat.
Hypothesis Hdst : (dst < length ops0)%nat.

Lemma inlineRegionBefore_withRegionsAt
    (srcRegions dstRegions : list (list Block)) (i : nat)
    (blocks parentBlocks : list Block) :
  srcRegions !! i = Some blocks →
  dstRegions !! i = Some parentBlocks →
  inlineRegionBefore (src, i) (dst, i)
    (withRegionsAt ops0 repl src dst so do srcRegions dstRegions)
  = withRegionsAt ops0 repl src dst so do
      (<[i := []]> srcRegions) (<[i := parentBlocks ++ blocks]> dstRegions).
Proof.
  intros Hs Hd. unfold inlineRegionBefore, getBlocks, withRegionsAt. simpl.
  rewrite list_lookup_insert_eq by (by rewrite length_insert). simpl.
  rewrite Hs.
  rewrite list_lookup_insert_ne by done.
  rewrite list_lookup_insert_eq by done. simpl.
  rewrite Hd. unfold setBlocks. simpl. f_equal.
  apply list_eq. intros j.
  rewrite !list_lookup_alter, !list_lookup_insert, !length_insert.
  destruct (decide (src = j)) as [->|Hj].
  - rewrite decide_False by done.
    rewrite decide_True by done. simpl.
    rewrite !decide_True by done. done.
  - destruct (decide (dst = j)) as [->|Hj'].
    + rewrite !(decide_False (P := src = j ∧ _)) by (intros [? _]; congruence).
      rewrite !decide_True by done. done.
    + rewrite !decide_False by (intros [? _]; congruence). done.
Qed.

Lemma inlineRegions_withRegionsAt (srcTodo : list (list Block)) :
  ∀ (dstTodo srcDone dstDone : list (list Block)),
  length srcDone = length dstDone →
  inlineRegions
    (zip ((λ i, (src, i)) <$> seq (length srcDone) (length srcTodo))
         ((λ i, (dst, i)) <$> seq (length srcDone) (length dstTodo)))
    (withRegionsAt ops0 repl src dst so do
       (srcDone ++ srcTodo) (dstDone ++ dstTodo))
  = withRegionsAt ops0 repl src dst so do
      (srcDone ++ emptied srcTodo dstTodo)
      (dstDone ++ received srcTodo dstTodo).
Proof.
  induction srcTodo as [|blocks srcTodo IH];
    intros [|parentBlocks dstTodo] srcDone dstDone Hlen; try done.
  cbn [length seq fmap list_fmap zip zip_with emptied received].
  rewrite inlineRegions_cons. cbn [fst snd].
  rewrite (inlineRegionBefore_withRegionsAt _ _ _ blocks parentBlocks);
    [|by apply list_lookup_middle|by apply list_lookup_middle].
  rewrite insert_app_r_alt, Nat.sub_diag by done.
  rewrite (insert_app_r_alt dstDone), Hlen, Nat.sub_diag by lia.
  cbn [insert list_insert].
  rewrite (cons_middle [] srcDone), (cons_middle (parentBlocks ++ blocks) dstDone).
  rewrite !app_assoc.
  specialize (IH dstTodo (srcDone ++ [[]]) (dstDone ++ [parentBlocks ++ blocks])).
  rewrite !length_app in IH. simpl in IH.
  rewrite Hlen, Nat.add_1_r in IH. rewrite <- Hlen at 1 2.
  rewrite Hlen. rewrite IH by done.
  by rewrite <- !app_assoc.
Qed.

End Rewriter.

(** ** The conversion pattern *)

Section OpConversionRule.
Context {ES : EnumSchema} {OS : OpSchema}.

Lemma withRegionsAt_id (ops0 : list Operation) (repl : list (nat * nat))
    (src dst : nat) (so do : Operation) :
  ops0 !! src = Some so → ops0 !! dst = Some do →
  withRegionsAt ops0 repl src dst so do (getRegions so) (getRegions do)
  = {| operations := ops0; replacements := repl |}.
Proof.
  intros Hs Hd. unfold withRegionsAt. rewrite !withRegions_getRegions.
  by rewrite (list_insert_id ops0 dst), list_insert_id.
Qed.

(** The result of [matchAndRewrite] in closed form. *)
Lemma matchAndRewrite_closed_form (this : StablehloToHloOpConverter)
    (stablehloOp : nat) (operands : list Value)
    (rewriter : ConversionPatternRewriter) (op : Operation) :
  operations rewriter !! stablehloOp = Some op →
  matchAndRewrite this stablehloOp operands rewriter
  = match convertTypes (getTypeConverter this) (getResultTypes op),
          mapM convertNamedAttr (getAttrs op) with
    | Some hloTypes, Some hloAttrs =>
        let hloOp := length (operations rewriter) in
        let new := newOperation this op hloTypes operands hloAttrs in
        (success,
         withRegionsAt (operations rewriter ++ [new])
           (replacements rewriter ++ [(stablehloOp, hloOp)])
           stablehloOp hloOp op new
           (emptied (getRegions op) (getRegions new))
           (received (getRegions op) (getRegions new)))
    | _, _ => (failure, rewriter)
    end.
Proof.
  intros Hop. unfold matchAndRewrite. rewrite Hop.
  destruct (convertTypes _ _) as [hloTypes|]; [|done].
  rewrite convertEach_nil_mapM.
  destruct (mapM convertNamedAttr (getAttrs op)) as [hloAttrs|]; [|done].
  assert ((if bool_decide (StablehloOpTy this = stablehlo_CaseOp)
           then replaceOpWithNewOp stablehloOp
                  (buildWithRegions mhlo_CaseOp hloTypes operands hloAttrs
                     (length (branches op))) rewriter
           else replaceOpWithNewOp stablehloOp
                  (build (StablehloToHloOp (StablehloOpTy this))
                     hloTypes operands hloAttrs) rewriter)
          = replaceOpWithNewOp stablehloOp
              (newOperation this op hloTypes operands hloAttrs) rewriter)
    as ->.
  { unfold newOperation. by case_bool_decide. }
  set (new := newOperation this op hloTypes operands hloAttrs).
  unfold replaceOpWithNewOp. cbn zeta. f_equal.
  assert (stablehloOp < length (operations rewriter))%nat as Hlt
    by (by eapply lookup_lt_Some).
  assert ((operations rewriter ++ [new]) !! stablehloOp = Some op) as Hs
    by (by apply lookup_app_l_Some).
  assert ((operations rewriter ++ [new]) !! length (operations rewriter)
          = Some new) as Hd by (by apply list_lookup_middle).
  unfold regionsOf. cbn [operations]. rewrite Hs, Hd.
  rewrite <- (withRegionsAt_id _ _ stablehloOp (length (operations rewriter))
                op new Hs Hd).
  apply (inlineRegions_withRegionsAt _ _ _ _ op new) with
    (srcDone := []) (dstDone := []); [lia| |..|done].
  - rewrite length_app. simpl. lia.
  - rewrite length_app. simpl. lia.
Qed.

Lemma mapM_convertNamedAttr_Some (stablehloAttrs hloAttrs : list NamedAttribute) :
  mapM convertNamedAttr stablehloAttrs = Some hloAttrs ↔
  Forall2 (λ s h, h.1 = s.1 ∧ convertAttr s.2 = Some h.2)
    stablehloAttrs hloAttrs.
Proof.
  rewrite mapM_Some.
  split; intros Hall; eapply Forall2_impl; try exact Hall;
    intros [n a] [n' a']; unfold convertNamedAttr; simpl;
    destruct (convertAttr a);
    [intros [= <- <-]; done|done|intros [-> [= ->]]; done|intros [_ [=]]].
Qed.

Lemma mapM_convertNamedAttr_None (stablehloAttrs : list NamedAttribute) :
  mapM convertNamedAttr stablehloAttrs = None ↔
  ∃ stablehloAttr,
    stablehloAttr ∈ stablehloAttrs ∧ convertAttr stablehloAttr.2 = None.
Proof.
  rewrite mapM_None_iff. apply exist_proper. intros [n a].
  unfold convertNamedAttr. simpl.
  destruct (convertAttr a); [|by split; intros [? _]].
  by split; intros [_ [=]].
Qed.

(** C1: when the type converter converts the result types of the source
    operation and every attribute value translates, the pattern succeeds,
    creates exactly one operation and records exactly one replacement, of
    the source operation by the new one; the result types of the new
    operation are the converted types, its operands are the operands of the
    adaptor in their order, and its attributes are, in order and under the
    same names, the translations of the attributes of the source. *)
Theorem matchAndRewrite_builds_replacement (this : StablehloToHloOpConverter)
    (stablehloOp : nat) (operands : list Value)
    (rewriter : ConversionPatternRewriter) (op : Operation)
    (hloTypes : list Type_) :
  operations rewriter !! stablehloOp = Some op →
  convertTypes (getTypeConverter this) (getResultTypes op) = Some hloTypes →
  Forall (λ stablehloAttr, is_Some (convertAttr stablehloAttr.2))
    (getAttrs op) →
  ∃ rewriter' hloOp,
    matchAndRewrite this stablehloOp operands rewriter = (success, rewriter')
    ∧ length (operations rewriter') = S (length (operations rewriter))
    ∧ replacements rewriter'
      = replacements rewriter ++ [(stablehloOp, length (operations rewriter))]
    ∧ operations rewriter' !! length (operations rewriter) = Some hloOp
    ∧ getResultTypes hloOp = hloTypes
    ∧ getOperands hloOp = operands
    ∧ Forall2 (λ s h, h.1 = s.1 ∧ convertAttr s.2 = Some h.2)
        (getAttrs op) (getAttrs hloOp)
    ∧ ∀ other,
        other ≠ stablehloOp → (other < length (operations rewriter))%nat →
        operations rewriter' !! other = operations rewriter !! other.
Proof.
  intros Hop Htypes Hattrs.
  rewrite (matchAndRewrite_closed_form _ _ _ _ op Hop), Htypes.
  destruct (mapM convertNamedAttr (getAttrs op)) as [hloAttrs|] eqn:Hm.
  2: { apply mapM_convertNamedAttr_None in Hm as (a & Hin & Ha).
       rewrite Forall_forall in Hattrs. destruct (Hattrs a Hin). congruence. }
  cbn zeta. eexists _, _. split; [done|].
  assert (stablehloOp < length (operations rewriter))%nat as Hlt
    by (by eapply lookup_lt_Some).
  unfold withRegionsAt. cbn [operations replacements].
  repeat split.
  - rewrite !length_insert, length_app. simpl. lia.
  - rewrite list_lookup_insert_ne by lia.
    apply list_lookup_insert_eq. rewrite length_app. simpl. lia.
  - unfold newOperation. by case_bool_decide.
  - unfold newOperation. by case_bool_decide.
  - apply mapM_convertNamedAttr_Some in Hm.
    unfold newOperation. by case_bool_decide.
  - intros other Hne Hother.
    rewrite !list_lookup_insert_ne by lia. by apply lookup_app_l.
Qed.

(** C2: the pattern fails exactly when the type converter fails on the
    result types or the translation of some attribute value fails, and a
    failing call returns the rewriter it was given: no operation is created,
    no replacement is recorded, and the source operation is as it was. *)
Theorem matchAndRewrite_atomic (this : StablehloToHloOpConverter)
    (stablehloOp : nat) (operands : list Value)
    (rewriter : ConversionPatternRewriter) (op : Operation) :
  operations rewriter !! stablehloOp = Some op →
  ((matchAndRewrite this stablehloOp operands rewriter).1 = failure ↔
   convertTypes (getTypeConverter this) (getResultTypes op) = None
   ∨ ∃ stablehloAttr,
       stablehloAttr ∈ getAttrs op ∧ convertAttr stablehloAttr.2 = None)
  ∧ ((matchAndRewrite this stablehloOp operands rewriter).1 = failure →
     (matchAndRewrite this stablehloOp operands rewriter).2 = rewriter
     ∧ operations (matchAndRewrite this stablehloOp operands rewriter).2
         !! stablehloOp = Some op).
Proof.
  intros Hop. rewrite (matchAndRewrite_closed_form _ _ _ _ op Hop).
  rewrite <- mapM_convertNamedAttr_None.
  destruct (convertTypes _ _) as [hloTypes|];
    destruct (mapM convertNamedAttr (getAttrs op)) as [hloAttrs|];
    cbn zeta; cbn [fst snd].
  - split; [|done]. split; [done|]. by intros [|].
  - split; [|done]. split; [by right|done].
  - split; [|done]. split; [by left|done].
  - split; [|done]. split; [by left|done].
Qed.

(** C7: a successful conversion moves every region of the source operation,
    in order, into the region of the same number of the new operation and
    leaves the source operation with empty regions; the replacement of a
    case operation is built with a branch count equal to the number of
    regions of the source. An operation of another kind is taken to own as
    many regions as its MHLO counterpart declares. *)
Theorem matchAndRewrite_relocates_regions (this : StablehloToHloOpConverter)
    (stablehloOp : nat) (operands : list Value)
    (rewriter rewriter' : ConversionPatternRewriter) (op : Operation) :
  operations rewriter !! stablehloOp = Some op →
  matchAndRewrite this stablehloOp operands rewriter = (success, rewriter') →
  (StablehloOpTy this ≠ stablehlo_CaseOp →
   hloNumRegions (StablehloToHloOp (StablehloOpTy this))
   = length (getRegions op)) →
  (∃ hloOp,
     operations rewriter' !! length (operations rewriter) = Some hloOp
     ∧ getRegions hloOp = getRegions op)
  ∧ operations rewriter' !! stablehloOp
    = Some (withRegions op (replicate (length (getRegions op)) []))
  ∧ (StablehloOpTy this = stablehlo_CaseOp →
     ∃ hloTypes hloAttrs,
       operations rewriter' !! length (operations rewriter)
       = Some (withRegions
                 (buildWithRegions mhlo_CaseOp hloTypes operands hloAttrs
                    (length (getRegions op)))
                 (getRegions op))).
Proof.
  intros Hop Hrun Hschema.
  rewrite (matchAndRewrite_closed_form _ _ _ _ op Hop) in Hrun.
  destruct (convertTypes _ _) as [hloTypes|]; [|done].
  destruct (mapM convertNamedAttr (getAttrs op)) as [hloAttrs|]; [|done].
  cbn zeta in Hrun. injection Hrun as <-.
  assert (stablehloOp < length (operations rewriter))%nat as Hlt
    by (by eapply lookup_lt_Some).
  assert (getRegions (newOperation this op hloTypes operands hloAttrs)
          = replicate (length (getRegions op)) []) as Hnew.
  { unfold newOperation, build, branches. case_bool_decide as Hcase; simpl.
    - done.
    - by rewrite Hschema. }
  rewrite Hnew, emptied_replicate, received_replicate.
  unfold withRegionsAt. cbn [operations].
  assert (∀ o, <[stablehloOp := withRegions op
                   (replicate (length (getRegions op)) [])]>
                 (<[length (operations rewriter) := o]>
                    (operations rewriter ++
                       [newOperation this op hloTypes operands hloAttrs]))
               !! length (operations rewriter) = Some o) as Hat.
  { intros o. rewrite list_lookup_insert_ne by lia.
    apply list_lookup_insert_eq. rewrite length_app. simpl. lia. }
  split; [|split].
  - eexists. split; [apply Hat|done].
  - apply list_lookup_insert_eq. rewrite length_insert, length_app. lia.
  - intros Hcase. exists hloTypes, hloAttrs. rewrite Hat.
    unfold newOperation. by rewrite bool_decide_eq_true_2.
Qed.

End OpConversionRule.

(** ** Registration *)

Lemma filter_fmap_kind (OpTy : OperationName) (converter : TypeConverter)
    (context : MLIRContext) (StablehloOpTypes : list OperationName) :
  length (filter (λ rule, StablehloOpTy rule = OpTy)
            ((λ OpTy', {| StablehloOpTy := OpTy';
                          getTypeConverter := converter;
                          getContext := context |}) <$> StablehloOpTypes))
  = length (filter (λ OpTy', OpTy' = OpTy) StablehloOpTypes).
Proof.
  induction StablehloOpTypes as [|k ks IH]; [done|].
  rewrite fmap_cons, !filter_cons. simpl.
  destruct (decide (k = OpTy)); simpl; by rewrite IH.
Qed.

Lemma filter_eq_absent (OpTy : OperationName) (kinds : list OperationName) :
  OpTy ∉ kinds → filter (λ OpTy', OpTy' = OpTy) kinds = [].
Proof.
  induction kinds as [|k ks IH]; intros Hnot; [done|].
  apply not_elem_of_cons in Hnot as [Hne Hnot].
  rewrite filter_cons, decide_False by congruence. by apply IH.
Qed.

Lemma filter_eq_NoDup (OpTy : OperationName) (kinds : list OperationName) :
  NoDup kinds → OpTy ∈ kinds →
  length (filter (λ OpTy', OpTy' = OpTy) kinds) = 1%nat.
Proof.
  induction 1 as [|k ks Hk Hnd IH]; intros Hin; [by apply elem_of_nil in Hin|].
  rewrite filter_cons. destruct (decide (k = OpTy)) as [->|Hne].
  - simpl. by rewrite filter_eq_absent.
  - apply elem_of_cons in Hin as [->|Hin]; [done|]. by apply IH.
Qed.

Section Registry.
Context {OS : OpSchema}.

(** C9: the entry point appends to the pattern set one converter for each
    operation of the list GET_OP_LIST, in the order of the list and nothing
    else, every one of them holding the type converter it was given; so the
    number of converters added for an operation kind is the number of times
    the list names it, which is once for each kind of a list without
    repetition and none for a kind the list does not name. *)
Theorem populate_one_pattern_per_op (patterns : RewritePatternSet)
    (converter : TypeConverter) (context : MLIRContext) :
  ∃ added,
    populateStablehloToHloPatterns patterns converter context
    = patterns ++ added
    ∧ StablehloOpTy <$> added = GET_OP_LIST
    ∧ Forall (λ rule, getTypeConverter rule = converter) added
    ∧ (∀ OpTy,
         length (filter (λ rule, StablehloOpTy rule = OpTy) added)
         = length (filter (λ OpTy', OpTy' = OpTy) GET_OP_LIST))
    ∧ (NoDup GET_OP_LIST →
       ∀ OpTy,
         (OpTy ∈ GET_OP_LIST →
          length (filter (λ rule, StablehloOpTy rule = OpTy) added) = 1%nat)
         ∧ (OpTy ∉ GET_OP_LIST →
            filter (λ rule, StablehloOpTy rule = OpTy) added = [])).
Proof.
  unfold populateStablehloToHloPatterns, populateStablehloToHloPatternsFor.
  eexists. split; [done|]. split; [|split; [|split]].
  - rewrite <- list_fmap_compose. apply list_fmap_id.
  - apply Forall_fmap, Forall_true. done.
  - intros OpTy. apply filter_fmap_kind.
  - intros Hnd OpTy. split.
    + intros Hin. rewrite filter_fmap_kind. by apply filter_eq_NoDup.
    + intros Hnot. apply length_zero_iff_nil.
      rewrite filter_fmap_kind. by rewrite filter_eq_absent.
Qed.

End Registry.

(** * Worked instances on the sample schema *)

Lemma convertAttr_enum_lookup_GE :
  convertAttr (ES := Sample.enums) Sample.direction_GE
  = Some (mhlo_EnumAttr ComparisonDirection 2)
  ∧ mhloEnumCases (EnumSchema := Sample.enums) ComparisonDirection !! 2%nat
    = Some "GE".
Proof.
  destruct (convertAttr_enum_lookup (ES := Sample.enums) ComparisonDirection 2)
    as (Heq & Hname & _).
  split; [exact Heq|reflexivity].
Defined.

Lemma convertAttr_unrecognized_fails_new_kind :
  getNamespace (OtherAttr "stablehlo" "#stablehlo.new") = "stablehlo"
  ∧ isRecognized (OtherAttr "stablehlo" "#stablehlo.new") = false
  ∧ convertAttr (ES := Sample.enums) (OtherAttr "stablehlo" "#stablehlo.new")
    = None.
Proof.
  split; [reflexivity|split; [reflexivity|]].
  apply (convertAttr_unrecognized_fails (ES := Sample.enums)); reflexivity.
Defined.

Lemma convertAttr_array_elementwise_nested :
  (∀ stablehloAttr,
     stablehloAttr ∈ [Sample.direction_GE; Sample.i64_7] →
     is_Some (convertAttr (ES := Sample.enums) stablehloAttr))
  ∧ is_Some (convertAttr (ES := Sample.enums)
               (ArrayAttr [Sample.direction_GE; Sample.i64_7])).
Proof.
  assert (∀ stablehloAttr,
            stablehloAttr ∈ [Sample.direction_GE; Sample.i64_7] →
            is_Some (convertAttr (ES := Sample.enums) stablehloAttr)) as Hall.
  { intros a Hin. apply elem_of_cons in Hin as [->|Hin]; [by eexists|].
    apply elem_of_cons in Hin as [->|Hin]; [by eexists|].
    by apply elem_of_nil in Hin. }
  split; [exact Hall|].
  apply (convertAttr_array_elementwise (ES := Sample.enums)). exact Hall.
Defined.

Lemma convertAttr_foreign_identity_i64 :
  getNamespace Sample.i64_7 ≠ "stablehlo"
  ∧ isArrayAttr Sample.i64_7 = false
  ∧ convertAttr (ES := Sample.enums) Sample.i64_7 = Some Sample.i64_7.
Proof.
  assert (getNamespace Sample.i64_7 ≠ "stablehlo") as Hns by discriminate.
  split; [exact Hns|split; [reflexivity|]].
  apply (convertAttr_foreign_identity (ES := Sample.enums));
    [exact Hns|reflexivity].
Defined.

Lemma convertAttr_enum_round_trip_GE :
  stablehlo_stringify (ES := Sample.enums) ComparisonDirection 2
    ∈ mhloEnumCases (EnumSchema := Sample.enums) ComparisonDirection
  ∧ ∃ hloValue,
      convertAttr (ES := Sample.enums) Sample.direction_GE
      = Some (mhlo_EnumAttr ComparisonDirection hloValue)
      ∧ mhlo_stringify (ES := Sample.enums) ComparisonDirection hloValue
        = stablehlo_stringify (ES := Sample.enums) ComparisonDirection 2.
Proof.
  assert (stablehlo_stringify (ES := Sample.enums) ComparisonDirection 2
            ∈ mhloEnumCases (EnumSchema := Sample.enums) ComparisonDirection)
    as Hknown.
  { apply (bool_decide_unpack _). vm_compute. exact I. }
  split; [exact Hknown|].
  apply (convertAttr_enum_round_trip (ES := Sample.enums)). exact Hknown.
Defined.

Lemma convertAttr_leaves_no_stablehlo_nested :
  convertAttr (ES := Sample.enums) Sample.nested
  = Some (ArrayAttr
            [mhlo_EnumAttr ComparisonDirection 2;
             ArrayAttr [mhlo_DotDimensionNumbersAttr Sample.dot; Sample.i64_7];
             ArrayAttr []])
  ∧ mentionsStablehlo
      (ArrayAttr
         [mhlo_EnumAttr ComparisonDirection 2;
          ArrayAttr [mhlo_DotDimensionNumbersAttr Sample.dot; Sample.i64_7];
          ArrayAttr []]) = false.
Proof.
  assert (convertAttr (ES := Sample.enums) Sample.nested
          = Some (ArrayAttr
                    [mhlo_EnumAttr ComparisonDirection 2;
                     ArrayAttr [mhlo_DotDimensionNumbersAttr Sample.dot;
                                Sample.i64_7];
                     ArrayAttr []])) as Hrun by reflexivity.
  split; [exact Hrun|].
  apply (convertAttr_leaves_no_stablehlo (ES := Sample.enums) _ _ Hrun).
Defined.

Lemma matchAndRewrite_builds_replacement_compare :
  operations Sample.rewriter !! 0%nat = Some Sample.compareOp
  ∧ convertTypes Sample.converter (getResultTypes Sample.compareOp)
    = Some [mkType "tensor<4xi1>"]
  ∧ Forall (λ stablehloAttr,
              is_Some (convertAttr (ES := Sample.enums) stablehloAttr.2))
      (getAttrs Sample.compareOp)
  ∧ ∃ rewriter' hloOp,
      matchAndRewrite (ES := Sample.enums) (OS := Sample.ops)
        (Sample.pattern "compare") 0 [mkValue 10; mkValue 11] Sample.rewriter
      = (success, rewriter')
      ∧ replacements rewriter' = [(0%nat, 5%nat)]
      ∧ operations rewriter' !! 5%nat = Some hloOp
      ∧ getResultTypes hloOp = [mkType "tensor<4xi1>"]
      ∧ getOperands hloOp = [mkValue 10; mkValue 11]
      ∧ Forall2 (λ s h, h.1 = s.1
                        ∧ convertAttr (ES := Sample.enums) s.2 = Some h.2)
          (getAttrs Sample.compareOp) (getAttrs hloOp).
Proof.
  assert (Forall (λ stablehloAttr,
                    is_Some (convertAttr (ES := Sample.enums) stablehloAttr.2))
            (getAttrs Sample.compareOp)) as Hattrs.
  { apply Forall_cons. split; [by eexists|apply Forall_nil_2]. }
  split; [reflexivity|split; [reflexivity|split; [exact Hattrs|]]].
  destruct (matchAndRewrite_builds_replacement (ES := Sample.enums)
              (OS := Sample.ops) (Sample.pattern "compare") 0
              [mkValue 10; mkValue 11] Sample.rewriter Sample.compareOp
              [mkType "tensor<4xi1>"] eq_refl eq_refl Hattrs)
    as (rewriter' & hloOp & Hrun & _ & Hrepl & Hnew & Htypes & Hoperands
        & Hnamed & _).
  exists rewriter', hloOp. repeat split; assumption.
Defined.

Lemma matchAndRewrite_atomic_odd_attribute :
  operations Sample.rewriter !! 2%nat = Some Sample.oddOp
  ∧ matchAndRewrite (ES := Sample.enums) (OS := Sample.ops)
      (Sample.pattern "add") 2 [mkValue 3; mkValue 4] Sample.rewriter
    = (failure, Sample.rewriter).
Proof.
  split; [reflexivity|].
  destruct (matchAndRewrite_atomic (ES := Sample.enums) (OS := Sample.ops)
              (Sample.pattern "add") 2 [mkValue 3; mkValue 4] Sample.rewriter
              Sample.oddOp eq_refl) as [_ Hsame].
  destruct (Hsame eq_refl) as [Hrw _].
  apply injective_projections; [reflexivity|exact Hrw].
Defined.

Lemma matchAndRewrite_relocates_regions_while :
  operations Sample.rewriter !! 4%nat = Some Sample.whileOp
  ∧ hloNumRegions (OpSchema := Sample.ops)
      (StablehloToHloOp (StablehloOpTy (Sample.pattern "while")))
    = length (getRegions Sample.whileOp)
  ∧ ∃ rewriter',
      matchAndRewrite (ES := Sample.enums) (OS := Sample.ops)
        (Sample.pattern "while") 4 [mkValue 5] Sample.rewriter
      = (success, rewriter')
      ∧ (∃ hloOp,
           operations rewriter' !! 5%nat = Some hloOp
           ∧ getRegions hloOp = [[mkBlock 4]; [mkBlock 5]])
      ∧ operations rewriter' !! 4%nat
        = Some (withRegions Sample.whileOp [[]; []]).
Proof.
  split; [reflexivity|split; [reflexivity|]].
  eexists. split; [reflexivity|].
  destruct (matchAndRewrite_relocates_regions (ES := Sample.enums)
              (OS := Sample.ops) (Sample.pattern "while") 4 [mkValue 5]
              Sample.rewriter _ Sample.whileOp eq_refl eq_refl
              (λ _, eq_refl)) as (Hnew & Hold & _).
  split; [exact Hnew|exact Hold].
Defined.

Lemma populate_one_pattern_per_op_sample :
  NoDup (GET_OP_LIST (OpSchema := Sample.ops))
  ∧ stablehlo_CaseOp ∈ GET_OP_LIST (OpSchema := Sample.ops)
  ∧ length (filter (λ rule, StablehloOpTy rule = stablehlo_CaseOp)
              (populateStablehloToHloPatterns (OS := Sample.ops) []
                 Sample.converter (mkContext 0))) = 1%nat.
Proof.
  assert (NoDup (GET_OP_LIST (OpSchema := Sample.ops))) as Hnd.
  { apply (bool_decide_unpack _). vm_compute. exact I. }
  assert (stablehlo_CaseOp ∈ GET_OP_LIST (OpSchema := Sample.ops)) as Hin.
  { apply (bool_decide_unpack _). vm_compute. exact I. }
  split; [exact Hnd|split; [exact Hin|]].
  destruct (populate_one_pattern_per_op (OS := Sample.ops) []
              Sample.converter (mkContext 0))
    as (added & -> & _ & _ & _ & Honce).
  exact (proj1 (Honce Hnd stablehlo_CaseOp) Hin).
Defined.

(** The scenarios of the specification, run on the definitions. *)

Example compare_scenario :
  matchAndRewrite (ES := Sample.enums) (OS := Sample.ops)
    (Sample.pattern "compare") 0 [mkValue 10; mkValue 11] Sample.rewriter
  = (success,
     {| operations :=
          operations Sample.rewriter ++
          [{| getName := {| getDialectNamespace := "mhlo";
                            stripDialect := "compare" |};
              getResultTypes := [mkType "tensor<4xi1>"];
              getOperands := [mkValue 10; mkValue 11];
              getAttrs := [("comparison_direction",
                            mhlo_EnumAttr ComparisonDirection 2)];
              getRegions := [] |}];
        replacements := [(0%nat, 5%nat)] |}).
Proof. reflexivity. Qed.

Example case_scenario :
  let result :=
    matchAndRewrite (ES := Sample.enums) (OS := Sample.ops)
      (Sample.pattern "case") 1 [mkValue 12] Sample.rewriter in
  result.1 = success
  ∧ operations result.2 !! 5%nat
    = Some (withRegions
              (buildWithRegions mhlo_CaseOp
                 [mkType "tensor<f32>"; mkType "!mhlo.token"] [mkValue 12] [] 3)
              [[mkBlock 0]; [mkBlock 1; mkBlock 2]; [mkBlock 3]])
  ∧ getRegions <$> operations result.2 !! 1%nat = Some [[]; []; []].
Proof. repeat split. Qed.

Example type_failure_scenario :
  matchAndRewrite (ES := Sample.enums) (OS := Sample.ops)
    (Sample.pattern "add") 3 [mkValue 3; mkValue 4] Sample.rewriter
  = (failure, Sample.rewriter).
Proof. reflexivity. Qed.

Example enum_skew_scenario :
  convertAttr (ES := Sample.skewedEnums) (stablehlo_EnumAttr FftType 4) = None
  ∧ convertAttr (ES := Sample.skewedEnums)
      (ArrayAttr [Sample.i64_7; stablehlo_EnumAttr FftType 4]) = None
  ∧ convertAttr (ES := Sample.skewedEnums) (stablehlo_EnumAttr FftType 3)
    = Some (mhlo_EnumAttr FftType 3).
Proof. repeat split. Qed.

(** * Further properties of the attribute translator *)

Section AttributeTranslatorMore.
Context {ES : EnumSchema}.

Lemma leaves_not_array (attr : Attribute) :
  isArrayAttr attr = false → leaves attr = [attr].
Proof. by destruct attr. Qed.

Lemma elem_of_flat_map_leaves (elements : list Attribute) (leaf : Attribute) :
  leaf ∈ flat_map leaves elements ↔
  ∃ element, element ∈ elements ∧ leaf ∈ leaves element.
Proof.
  rewrite list_elem_of_In, in_flat_map. apply exist_proper. intros element.
  by rewrite !list_elem_of_In.
Qed.

Lemma convertAttr_isArrayAttr (stablehloAttr hloAttr : Attribute) :
  convertAttr stablehloAttr = Some hloAttr →
  isArrayAttr hloAttr = isArrayAttr stablehloAttr.
Proof.
  destruct stablehloAttr; simpl; try (by intros [= <-]).
  - rewrite RETURN_CONVERTED_ENUM_ATTR_eq. by intros [? [_ ->]]%fmap_Some.
  - destruct (convertEach _ _ _); by intros [= <-].
  - case_bool_decide; by intros [= <-].
Qed.

Lemma convertAttr_Some_clean (stablehloAttr : Attribute) :
  ∀ hloAttr,
  convertAttr stablehloAttr = Some hloAttr → mentionsStablehlo hloAttr = false.
Proof.
  induction stablehloAttr as [elements IH|attr Hleaf]
    using Attribute_nested_ind; intros hloAttr Hc.
  - rewrite convertAttr_ArrayAttr in Hc.
    apply fmap_Some in Hc as [hloAttrs [Hm ->]].
    simpl. apply existsb_mentions_false. apply mapM_Some in Hm.
    induction Hm as [|x h xs hs Hx _ IHm]; [done|].
    apply Forall_cons in IH as [IHx IHxs].
    constructor; [by apply IHx|by apply IHm].
  - destruct attr; simpl in *; try discriminate;
      try (injection Hc as <-; done).
    + rewrite RETURN_CONVERTED_ENUM_ATTR_eq in Hc.
      by apply fmap_Some in Hc as [hloValue [_ ->]].
    + case_bool_decide as Hns; [done|]. injection Hc as <-.
      simpl. by rewrite bool_decide_eq_false_2.
Qed.

Lemma convertAttr_leaf_None (attr : Attribute) :
  isArrayAttr attr = false →
  convertAttr attr = None ↔ failsAtLeaf attr.
Proof.
  intros Hleaf. unfold failsAtLeaf.
  destruct attr; simpl in *; try discriminate;
    try (split; [done|intros [[? ?]|(? & ? & ? & _)]; discriminate]).
  - rewrite RETURN_CONVERTED_ENUM_ATTR_eq, fmap_None.
    unfold mhlo_symbolize. rewrite symbolizeEnum_None. split.
    + intros Hnot. right. by exists Name, value.
    + intros [[_ ?]|(Name' & value' & [= <- <-] & Hnot)]; [discriminate|done].
  - case_bool_decide as Hns; split; try done.
    + intros _. by left.
    + intros [[? _]|(? & ? & ? & _)]; [done|discriminate].
Qed.

(** X1: each of the five record attributes of the stablehlo dialect always
    translates, to the mhlo attribute of the same class holding the same
    value in every field. *)
Theorem convertAttr_record_fields :
  (∀ attr, convertAttr (stablehlo_ChannelHandleAttr attr)
           = Some (mhlo_ChannelHandleAttr attr))
  ∧ (∀ attr, convertAttr (stablehlo_ConvDimensionNumbersAttr attr)
             = Some (mhlo_ConvDimensionNumbersAttr attr))
  ∧ (∀ attr, convertAttr (stablehlo_DotDimensionNumbersAttr attr)
             = Some (mhlo_DotDimensionNumbersAttr attr))
  ∧ (∀ attr, convertAttr (stablehlo_GatherDimensionNumbersAttr attr)
             = Some (mhlo_GatherDimensionNumbersAttr attr))
  ∧ (∀ attr, convertAttr (stablehlo_ScatterDimensionNumbersAttr attr)
             = Some (mhlo_ScatterDimensionNumbersAttr attr)).
Proof. repeat split; by intros []. Qed.

(** X2: an attribute that holds no stablehlo attribute, at any depth of
    arrays, translates to itself; so the result of a successful translation
    translates to itself: translating twice is translating once. *)
Theorem convertAttr_fixed_points :
  (∀ attr, mentionsStablehlo attr = false → convertAttr attr = Some attr)
  ∧ (∀ stablehloAttr hloAttr,
       convertAttr stablehloAttr = Some hloAttr →
       convertAttr hloAttr = Some hloAttr).
Proof.
  assert (∀ attr, mentionsStablehlo attr = false → convertAttr attr = Some attr)
    as Hfixed.
  { induction attr as [elements IH|attr Hleaf] using Attribute_nested_ind;
      intros Hclean.
    - rewrite convertAttr_ArrayAttr. simpl in Hclean.
      assert (mapM convertAttr elements = Some elements) as ->; [|done].
      apply mapM_Some, Forall_Forall2_diag.
      induction IH as [|x xs Hx _ IHxs]; [done|].
      simpl in Hclean. apply orb_false_elim in Hclean as [Hx' Hxs'].
      constructor; [by apply Hx|by apply IHxs].
    - destruct attr; simpl in *; try done.
      apply orb_false_elim in Hclean as [Hns _].
      by rewrite Hns. }
  split; [exact Hfixed|].
  intros stablehloAttr hloAttr Hc. by eapply Hfixed, convertAttr_Some_clean.
Qed.

(** X3: the translation of an attribute fails exactly when one of its
    leaves, reached through any depth of arrays, is of the stablehlo
    namespace and of no class the translator casts to, or is an enum
    attribute whose symbol the mhlo enum does not declare. *)
Theorem convertAttr_fails_iff_leaf (stablehloAttr : Attribute) :
  convertAttr stablehloAttr = None ↔
  ∃ leaf, leaf ∈ leaves stablehloAttr ∧ failsAtLeaf leaf.
Proof.
  induction stablehloAttr as [elements IH|attr Hleaf]
    using Attribute_nested_ind.
  - rewrite convertAttr_ArrayAttr, fmap_None, mapM_None_iff.
    cbn [leaves]. rewrite Forall_forall in IH. split.
    + intros (x & Hin & Hx). apply (IH x Hin) in Hx as (leaf & Hleaf & Hfail).
      exists leaf. split; [|done]. apply elem_of_flat_map_leaves. eauto.
    + intros (leaf & Hin & Hfail).
      apply elem_of_flat_map_leaves in Hin as (x & Hx & Hleaf).
      exists x. split; [done|]. apply (IH x Hx). eauto.
  - rewrite (leaves_not_array _ Hleaf), (convertAttr_leaf_None _ Hleaf). split.
    + intros Hfail. exists attr. split; [by left|done].
    + intros (leaf & Hin & Hfail).
      apply elem_of_cons in Hin as [->|Hin]; [done|].
      by apply elem_of_nil in Hin.
Qed.

(** X4: when the mhlo dialect declares every symbol the stablehlo dialect
    declares, an attribute translates as soon as each of its leaves is an
    enum attribute of a declared enumerator or is of any class other than
    an unhandled one of the stablehlo namespace. *)
Theorem convertAttr_total_without_skew (stablehloAttr : Attribute) :
  (∀ Name, stablehloEnumCases Name ⊆ mhloEnumCases Name) →
  Forall (λ leaf, isKnown leaf = true) (leaves stablehloAttr) →
  is_Some (convertAttr stablehloAttr).
Proof.
  intros Hsub.
  induction stablehloAttr as [elements IH|attr Hleaf]
    using Attribute_nested_ind; intros Hknown.
  - rewrite convertAttr_ArrayAttr. apply fmap_is_Some, mapM_is_Some.
    rewrite Forall_forall in IH, Hknown. apply Forall_forall.
    intros x Hx. apply (IH x Hx), Forall_forall. intros leaf Hleaf.
    apply Hknown, elem_of_flat_map_leaves. eauto.
  - rewrite (leaves_not_array _ Hleaf) in Hknown.
    apply Forall_cons in Hknown as [Hknown _].
    destruct attr; simpl in *; try discriminate; try (by eexists).
    + apply bool_decide_eq_true in Hknown.
      apply lookup_lt_is_Some in Hknown as [name Hname].
      rewrite RETURN_CONVERTED_ENUM_ATTR_eq. apply fmap_is_Some.
      apply not_eq_None_Some. unfold mhlo_symbolize.
      rewrite symbolizeEnum_None. intros Hnot. apply Hnot, Hsub.
      unfold stablehlo_stringify, stringifyEnum. rewrite Hname. simpl.
      by eapply list_elem_of_lookup_2.
    + apply bool_decide_eq_true in Hknown.
      rewrite bool_decide_eq_false_2 by done. by eexists.
Qed.

(** X5: a successful translation keeps the shape of the attribute at every
    depth: the leaves of the result are, one for one and in the same order,
    the translations of the leaves of the source. *)
Theorem convertAttr_leafwise (stablehloAttr : Attribute) :
  ∀ hloAttr,
  convertAttr stablehloAttr = Some hloAttr →
  Forall2 (λ leaf hloLeaf, convertAttr leaf = Some hloLeaf)
    (leaves stablehloAttr) (leaves hloAttr)
  ∧ length (leaves hloAttr) = length (leaves stablehloAttr).
Proof.
  intros hloAttr Hc.
  assert (Forall2 (λ leaf hloLeaf, convertAttr leaf = Some hloLeaf)
            (leaves stablehloAttr) (leaves hloAttr)) as Hall.
  2: { split; [done|]. symmetry. by eapply Forall2_length. }
  revert hloAttr Hc.
  induction stablehloAttr as [elements IH|attr Hleaf]
    using Attribute_nested_ind; intros hloAttr Hc.
  - rewrite convertAttr_ArrayAttr in Hc.
    apply fmap_Some in Hc as [hloAttrs [Hm ->]]. apply mapM_Some in Hm.
    cbn [leaves].
    induction Hm as [|x h xs hs Hx _ IHm]; [constructor|].
    apply Forall_cons in IH as [IHx IHxs]. simpl.
    apply Forall2_app; [by apply IHx|by apply IHm].
  - pose proof (convertAttr_isArrayAttr _ _ Hc) as Harr.
    rewrite Hleaf in Harr.
    rewrite (leaves_not_array _ Hleaf), (leaves_not_array _ Harr).
    by constructor.
Qed.

(** X6: a successful translation turns the stablehlo namespace into the
    mhlo namespace and keeps every other namespace, and its result is an
    array exactly when the source is one. *)
Theorem convertAttr_namespace (stablehloAttr hloAttr : Attribute) :
  convertAttr stablehloAttr = Some hloAttr →
  getNamespace hloAttr
  = (if bool_decide (getNamespace stablehloAttr = "stablehlo")
     then "mhlo" else getNamespace stablehloAttr)
  ∧ isArrayAttr hloAttr = isArrayAttr stablehloAttr.
Proof.
  destruct stablehloAttr; simpl; try (by intros [= <-]).
  - rewrite RETURN_CONVERTED_ENUM_ATTR_eq. by intros [? [_ ->]]%fmap_Some.
  - destruct (convertEach _ _ _); by intros [= <-].
  - case_bool_decide; by intros [= <-].
Qed.

End AttributeTranslatorMore.

(** * Further properties of the conversion pattern *)

Lemma concat_replicate_nil {A : Type} (n : nat) :
  concat (replicate n (@nil A)) = [].
Proof. induction n as [|n IH]; [done|]. simpl. exact IH. Qed.

Lemma emptied_replicate_slots (src : list (list Block)) :
  ∀ slots,
  emptied src (replicate slots [])
  = replicate (min (length src) slots) [] ++ drop slots src.
Proof.
  induction src as [|blocks src IH]; intros [|slots]; simpl; try done.
  by rewrite IH.
Qed.

Lemma received_replicate_slots (src : list (list Block)) :
  ∀ slots,
  received src (replicate slots [])
  = take slots src ++ replicate (slots - length src) [].
Proof.
  induction src as [|blocks src IH]; intros [|slots]; simpl; try done.
  by rewrite IH.
Qed.

Lemma withRegionsAt_lookup_src (ops0 : list Operation)
    (repl : list (nat * nat)) (src dst : nat) (so do : Operation)
    (srcRegions dstRegions : list (list Block)) :
  (src < length ops0)%nat →
  operations (withRegionsAt ops0 repl src dst so do srcRegions dstRegions)
    !! src = Some (withRegions so srcRegions).
Proof.
  intros Hsrc. unfold withRegionsAt. simpl.
  apply list_lookup_insert_eq. by rewrite length_insert.
Qed.

Lemma withRegionsAt_lookup_dst (ops0 : list Operation)
    (repl : list (nat * nat)) (src dst : nat) (so do : Operation)
    (srcRegions dstRegions : list (list Block)) :
  src ≠ dst → (dst < length ops0)%nat →
  operations (withRegionsAt ops0 repl src dst so do srcRegions dstRegions)
    !! dst = Some (withRegions do dstRegions).
Proof.
  intros Hne Hdst. unfold withRegionsAt. simpl.
  rewrite list_lookup_insert_ne by done. by apply list_lookup_insert_eq.
Qed.

Lemma withRegionsAt_lookup_other (ops0 : list Operation)
    (repl : list (nat * nat)) (src dst : nat) (so do : Operation)
    (srcRegions dstRegions : list (list Block)) (other : nat) :
  other ≠ src → other ≠ dst →
  operations (withRegionsAt ops0 repl src dst so do srcRegions dstRegions)
    !! other = ops0 !! other.
Proof.
  intros Hsrc Hdst. unfold withRegionsAt. simpl.
  by rewrite !list_lookup_insert_ne.
Qed.

Section OpConversionRuleMore.
Context {ES : EnumSchema} {OS : OpSchema}.

Lemma newOperation_regions (this : StablehloToHloOpConverter) (op : Operation)
    (hloTypes : list Type_) (hloOperands : list Value)
    (hloAttrs : list NamedAttribute) :
  getRegions (newOperation this op hloTypes hloOperands hloAttrs)
  = replicate (newRegionCount this op) [].
Proof. unfold newOperation, newRegionCount, build. by case_bool_decide. Qed.

Lemma newOperation_fields (this : StablehloToHloOpConverter) (op : Operation)
    (hloTypes : list Type_) (hloOperands : list Value)
    (hloAttrs : list NamedAttribute) :
  getName (newOperation this op hloTypes hloOperands hloAttrs)
  = (if bool_decide (StablehloOpTy this = stablehlo_CaseOp)
     then mhlo_CaseOp else StablehloToHloOp (StablehloOpTy this))
  ∧ getResultTypes (newOperation this op hloTypes hloOperands hloAttrs)
    = hloTypes
  ∧ getOperands (newOperation this op hloTypes hloOperands hloAttrs)
    = hloOperands
  ∧ getAttrs (newOperation this op hloTypes hloOperands hloAttrs) = hloAttrs.
Proof. unfold newOperation. by case_bool_decide. Qed.

Lemma matchAndRewrite_unknown (this : StablehloToHloOpConverter)
    (stablehloOp : nat) (operands : list Value)
    (rewriter : ConversionPatternRewriter) :
  operations rewriter !! stablehloOp = None →
  matchAndRewrite this stablehloOp operands rewriter = (failure, rewriter).
Proof. intros Hnone. unfold matchAndRewrite. by rewrite Hnone. Qed.

(** What a successful call leaves at every position of the rewriter. *)
Lemma matchAndRewrite_success_state (this : StablehloToHloOpConverter)
    (stablehloOp : nat) (operands : list Value)
    (rewriter : ConversionPatternRewriter) (op : Operation)
    (hloTypes : list Type_) (hloAttrs : list NamedAttribute) :
  operations rewriter !! stablehloOp = Some op →
  convertTypes (getTypeConverter this) (getResultTypes op) = Some hloTypes →
  mapM convertNamedAttr (getAttrs op) = Some hloAttrs →
  ∃ rewriter',
    matchAndRewrite this stablehloOp operands rewriter = (success, rewriter')
    ∧ replacements rewriter'
      = replacements rewriter ++ [(stablehloOp, length (operations rewriter))]
    ∧ length (operations rewriter') = S (length (operations rewriter))
    ∧ operations rewriter' !! length (operations rewriter)
      = Some (withRegions (newOperation this op hloTypes operands hloAttrs)
                (received (getRegions op)
                   (replicate (newRegionCount this op) [])))
    ∧ operations rewriter' !! stablehloOp
      = Some (withRegions op
                (emptied (getRegions op)
                   (replicate (newRegionCount this op) [])))
    ∧ ∀ other,
        other ≠ stablehloOp → (other < length (operations rewriter))%nat →
        operations rewriter' !! other = operations rewriter !! other.
Proof.
  intros Hop Htypes Hattrs.
  rewrite (matchAndRewrite_closed_form _ _ _ _ op Hop), Htypes, Hattrs.
  cbn zeta. rewrite newOperation_regions.
  assert (stablehloOp < length (operations rewriter))%nat as Hlt
    by (by eapply lookup_lt_Some).
  eexists. split; [done|]. split; [done|].
  split; [|split; [|split]].
  - unfold withRegionsAt. cbn [operations].
    rewrite !length_insert, length_app. simpl. lia.
  - apply withRegionsAt_lookup_dst; [lia|]. rewrite length_app. simpl. lia.
  - apply withRegionsAt_lookup_src. rewrite length_app. simpl. lia.
  - intros other Hne Hother.
    rewrite withRegionsAt_lookup_other by lia. by apply lookup_app_l.
Qed.

(** A call leaves the operations other than its source as they were. *)
Lemma matchAndRewrite_other (this : StablehloToHloOpConverter)
    (stablehloOp : nat) (operands : list Value)
    (rewriter : ConversionPatternRewriter) (other : nat) (o : Operation) :
  other ≠ stablehloOp → operations rewriter !! other = Some o →
  operations (matchAndRewrite this stablehloOp operands rewriter).2 !! other
  = Some o.
Proof.
  intros Hne Hother.
  destruct (operations rewriter !! stablehloOp) as [op|] eqn:Hop.
  2: { by rewrite matchAndRewrite_unknown. }
  destruct (convertTypes (getTypeConverter this) (getResultTypes op))
    as [hloTypes|] eqn:Htypes.
  2: { by rewrite (matchAndRewrite_closed_form _ _ _ _ op Hop), Htypes. }
  destruct (mapM convertNamedAttr (getAttrs op)) as [hloAttrs|] eqn:Hattrs.
  2: { by rewrite (matchAndRewrite_closed_form _ _ _ _ op Hop), Htypes, Hattrs. }
  destruct (matchAndRewrite_success_state this stablehloOp operands rewriter
              op hloTypes hloAttrs Hop Htypes Hattrs)
    as (rewriter' & -> & _ & _ & _ & _ & Hframe).
  simpl. rewrite Hframe; [done..|]. by eapply lookup_lt_Some.
Qed.

(** X7: after a successful call the new operation holds, in order, the
    regions of the source up to the number of regions it was built with,
    followed by empty regions if it has more; the source is left with empty
    regions at those positions and keeps the regions beyond them. No block
    is lost or held twice: the blocks of the new operation followed by the
    blocks left in the source are the blocks the source had. *)
Theorem matchAndRewrite_regions_zip (this : StablehloToHloOpConverter)
    (stablehloOp : nat) (operands : list Value)
    (rewriter rewriter' : ConversionPatternRewriter) (op : Operation) :
  operations rewriter !! stablehloOp = Some op →
  matchAndRewrite this stablehloOp operands rewriter = (success, rewriter') →
  ∃ hloOp op',
    operations rewriter' !! length (operations rewriter) = Some hloOp
    ∧ operations rewriter' !! stablehloOp = Some op'
    ∧ getRegions hloOp
      = take (newRegionCount this op) (getRegions op)
        ++ replicate (newRegionCount this op - length (getRegions op)) []
    ∧ getRegions op'
      = replicate (min (length (getRegions op)) (newRegionCount this op)) []
        ++ drop (newRegionCount this op) (getRegions op)
    ∧ concat (getRegions hloOp) ++ concat (getRegions op')
      = concat (getRegions op).
Proof.
  intros Hop Hrun.
  destruct (convertTypes (getTypeConverter this) (getResultTypes op))
    as [hloTypes|] eqn:Htypes.
  2: { by rewrite (matchAndRewrite_closed_form _ _ _ _ op Hop), Htypes in Hrun. }
  destruct (mapM convertNamedAttr (getAttrs op)) as [hloAttrs|] eqn:Hattrs.
  2: { by rewrite (matchAndRewrite_closed_form _ _ _ _ op Hop), Htypes, Hattrs
         in Hrun. }
  destruct (matchAndRewrite_success_state this stablehloOp operands rewriter
              op hloTypes hloAttrs Hop Htypes Hattrs)
    as (rw & Hrw & _ & _ & Hnew & Hold & _).
  rewrite Hrw in Hrun. injection Hrun as <-.
  rewrite received_replicate_slots in Hnew.
  rewrite emptied_replicate_slots in Hold.
  eexists _, _. split; [exact Hnew|]. split; [exact Hold|].
  cbn [withRegions getRegions]. split; [done|]. split; [done|].
  rewrite !concat_app, !concat_replicate_nil, app_nil_r. simpl.
  by rewrite <- concat_app, take_drop.
Qed.


Lemma convertNamedAttrs_clean (stablehloAttrs hloAttrs : list NamedAttribute) :
  mapM convertNamedAttr stablehloAttrs = Some hloAttrs →
  hloAttrs.*1 = stablehloAttrs.*1
  ∧ Forall (λ hloAttr, mentionsStablehlo hloAttr.2 = false) hloAttrs.
Proof.
  intros Hall. apply mapM_convertNamedAttr_Some in Hall.
  induction Hall as [|s h ss hs [Hname Hvalue] _ [IHnames IHclean]]; [done|].
  split.
  - rewrite !fmap_cons. by f_equal.
  - constructor; [|done]. by eapply convertAttr_Some_clean.
Qed.

(** X9: the attributes of the operation a successful call creates carry the
    names of the source's attributes, in the same order, and none of their
    values holds a stablehlo attribute at any depth of arrays. *)
Theorem matchAndRewrite_attributes_clean (this : StablehloToHloOpConverter)
    (stablehloOp : nat) (operands : list Value)
    (rewriter rewriter' : ConversionPatternRewriter) (op : Operation) :
  operations rewriter !! stablehloOp = Some op →
  matchAndRewrite this stablehloOp operands rewriter = (success, rewriter') →
  ∃ hloOp,
    operations rewriter' !! length (operations rewriter) = Some hloOp
    ∧ (getAttrs hloOp).*1 = (getAttrs op).*1
    ∧ Forall (λ hloAttr, mentionsStablehlo hloAttr.2 = false) (getAttrs hloOp).
Proof.
  intros Hop Hrun.
  destruct (convertTypes (getTypeConverter this) (getResultTypes op))
    as [hloTypes|] eqn:Htypes.
  2: { by rewrite (matchAndRewrite_closed_form _ _ _ _ op Hop), Htypes in Hrun. }
  destruct (mapM convertNamedAttr (getAttrs op)) as [hloAttrs|] eqn:Hattrs.
  2: { by rewrite (matchAndRewrite_closed_form _ _ _ _ op Hop), Htypes, Hattrs
         in Hrun. }
  destruct (matchAndRewrite_success_state this stablehloOp operands rewriter
              op hloTypes hloAttrs Hop Htypes Hattrs)
    as (rw & Hrw & _ & _ & Hnew & _).
  rewrite Hrw in Hrun. injection Hrun as <-.
  eexists. split; [exact Hnew|]. cbn [withRegions getAttrs].
  destruct (newOperation_fields this op hloTypes operands hloAttrs)
    as (_ & _ & _ & ->).
  by apply convertNamedAttrs_clean.
Qed.

(** X10: a call on one operation does not change what a later call on
    another operation does: whether the first call succeeded or failed, the
    later call has the outcome it would have had without it, creates the
    same operation and leaves its own source in the same state. *)
Theorem matchAndRewrite_independent (thisA thisB : StablehloToHloOpConverter)
    (opA opB : nat) (operandsA operandsB : list Value)
    (rewriter : ConversionPatternRewriter) (op : Operation) :
  opA ≠ opB →
  operations rewriter !! opB = Some op →
  (matchAndRewrite thisB opB operandsB
     (matchAndRewrite thisA opA operandsA rewriter).2).1
  = (matchAndRewrite thisB opB operandsB rewriter).1
  ∧ operations
      (matchAndRewrite thisB opB operandsB
         (matchAndRewrite thisA opA operandsA rewriter).2).2 !! opB
    = operations (matchAndRewrite thisB opB operandsB rewriter).2 !! opB
  ∧ ((matchAndRewrite thisB opB operandsB rewriter).1 = success →
     operations
       (matchAndRewrite thisB opB operandsB
          (matchAndRewrite thisA opA operandsA rewriter).2).2
       !! length (operations (matchAndRewrite thisA opA operandsA rewriter).2)
     = operations (matchAndRewrite thisB opB operandsB rewriter).2
         !! length (operations rewriter)).
Proof.
  intros Hne Hop.
  pose proof (matchAndRewrite_other thisA opA operandsA rewriter opB op
                (not_eq_sym Hne) Hop) as Hop'.
  set (rewriter1 := (matchAndRewrite thisA opA operandsA rewriter).2) in *.
  destruct (convertTypes (getTypeConverter thisB) (getResultTypes op))
    as [hloTypes|] eqn:Htypes.
  2: { rewrite (matchAndRewrite_closed_form _ _ _ rewriter1 op Hop'),
         (matchAndRewrite_closed_form _ _ _ rewriter op Hop), Htypes.
       simpl. by rewrite Hop, Hop'. }
  destruct (mapM convertNamedAttr (getAttrs op)) as [hloAttrs|] eqn:Hattrs.
  2: { rewrite (matchAndRewrite_closed_form _ _ _ rewriter1 op Hop'),
         (matchAndRewrite_closed_form _ _ _ rewriter op Hop), Htypes, Hattrs.
       simpl. by rewrite Hop, Hop'. }
  destruct (matchAndRewrite_success_state thisB opB operandsB rewriter1
              op hloTypes hloAttrs Hop' Htypes Hattrs)
    as (rw1 & -> & _ & _ & Hnew1 & Hold1 & _).
  destruct (matchAndRewrite_success_state thisB opB operandsB rewriter
              op hloTypes hloAttrs Hop Htypes Hattrs)
    as (rw & -> & _ & _ & Hnew & Hold & _).
  cbn [fst snd]. split; [done|]. split; [by rewrite Hold1, Hold|].
  intros _. by rewrite Hnew1, Hnew.
Qed.

End OpConversionRuleMore.

(** * Registration and conversion together *)

Section RegistryMore.
Context {ES : EnumSchema} {OS : OpSchema}.

(** X11: for every operation kind of GET_OP_LIST the populated pattern set
    holds a pattern of that kind which, on an operation whose result types
    the injected converter converts and whose attribute values all
    translate, succeeds and creates an operation of the mhlo counterpart of
    the kind with the types the injected converter returned. *)
Theorem populate_covers_every_op (patterns : RewritePatternSet)
    (converter : TypeConverter) (context : MLIRContext) (OpTy : OperationName) :
  OpTy ∈ GET_OP_LIST →
  ∃ this,
    this ∈ populateStablehloToHloPatterns patterns converter context
    ∧ StablehloOpTy this = OpTy
    ∧ ∀ stablehloOp operands rewriter op hloTypes,
        operations rewriter !! stablehloOp = Some op →
        convertTypes converter (getResultTypes op) = Some hloTypes →
        Forall (λ stablehloAttr, is_Some (convertAttr stablehloAttr.2))
          (getAttrs op) →
        ∃ rewriter' hloOp,
          matchAndRewrite this stablehloOp operands rewriter
          = (success, rewriter')
          ∧ operations rewriter' !! length (operations rewriter) = Some hloOp
          ∧ getName hloOp = StablehloToHloOp OpTy
          ∧ getResultTypes hloOp = hloTypes.
Proof.
  intros Hin.
  exists {| StablehloOpTy := OpTy; getTypeConverter := converter;
            getContext := context |}.
  split; [|split; [done|]].
  - unfold populateStablehloToHloPatterns, populateStablehloToHloPatternsFor.
    apply elem_of_app. right. apply list_elem_of_fmap. by exists OpTy.
  - intros stablehloOp operands rewriter op hloTypes Hop Htypes Hattrs.
    destruct (mapM convertNamedAttr (getAttrs op)) as [hloAttrs|] eqn:Hm.
    2: { apply mapM_convertNamedAttr_None in Hm as (a & Ha & Hnone).
         rewrite Forall_forall in Hattrs. destruct (Hattrs a Ha). congruence. }
    destruct (matchAndRewrite_success_state
                {| StablehloOpTy := OpTy; getTypeConverter := converter;
                   getContext := context |}
                stablehloOp operands rewriter op hloTypes hloAttrs
                Hop Htypes Hm)
      as (rewriter' & Hrun & _ & _ & Hnew & _).
    eexists _, _. split; [exact Hrun|]. split; [exact Hnew|].
    cbn [withRegions getName getResultTypes].
    unfold newOperation. cbn [StablehloOpTy].
    case_bool_decide as Hcase; [|done]. by rewrite Hcase.
Qed.

End RegistryMore.

(** X12: the registration template adds nothing for an empty list of
    operation kinds, adds one pattern per kind, and on a concatenation of
    lists does what it does on the first list and then on the second; the
    entry point is not idempotent: run on a set it has populated, it adds
    every pattern a second time. *)
Theorem populateStablehloToHloPatternsFor_append {OS : OpSchema}
    (kinds1 kinds2 : list OperationName) (patterns : RewritePatternSet)
    (converter : TypeConverter) (context : MLIRContext) :
  populateStablehloToHloPatternsFor [] patterns converter context = patterns
  ∧ length (populateStablehloToHloPatternsFor kinds1 patterns converter context)
    = (length patterns + length kinds1)%nat
  ∧ populateStablehloToHloPatternsFor (kinds1 ++ kinds2) patterns
      converter context
    = populateStablehloToHloPatternsFor kinds2
        (populateStablehloToHloPatternsFor kinds1 patterns converter context)
        converter context
  ∧ populateStablehloToHloPatterns
      (populateStablehloToHloPatterns patterns converter context)
      converter context
    = populateStablehloToHloPatternsFor (GET_OP_LIST ++ GET_OP_LIST) patterns
        converter context.
Proof.
  unfold populateStablehloToHloPatterns, populateStablehloToHloPatternsFor.
  split; [by rewrite fmap_nil, app_nil_r|].
  split; [by rewrite length_app, length_fmap|].
  by rewrite !fmap_app, !app_assoc.
Qed.

(** * Further worked instances *)

Lemma convertAttr_fixed_points_nestedHlo :
  mentionsStablehlo Sample.nestedHlo = false
  ∧ convertAttr (ES := Sample.enums) Sample.nestedHlo = Some Sample.nestedHlo.
Proof.
  split; [reflexivity|].
  apply (convertAttr_fixed_points (ES := Sample.enums)). reflexivity.
Defined.

Lemma convertAttr_fails_iff_leaf_broken :
  (∃ leaf,
     leaf ∈ leaves Sample.brokenNested
     ∧ failsAtLeaf (ES := Sample.enums) leaf)
  ∧ convertAttr (ES := Sample.enums) Sample.brokenNested = None.
Proof.
  assert (∃ leaf,
            leaf ∈ leaves Sample.brokenNested
            ∧ failsAtLeaf (ES := Sample.enums) leaf) as Hleaf.
  { exists (OtherAttr "stablehlo" "#stablehlo.new"). split.
    - simpl. apply list_elem_of_further, list_elem_of_here.
    - left. split; reflexivity. }
  split; [exact Hleaf|].
  apply (convertAttr_fails_iff_leaf (ES := Sample.enums)). exact Hleaf.
Defined.

Lemma convertAttr_total_without_skew_nested :
  (∀ Name,
     stablehloEnumCases (EnumSchema := Sample.enums) Name
     ⊆ mhloEnumCases (EnumSchema := Sample.enums) Name)
  ∧ Forall (λ leaf, isKnown (ES := Sample.enums) leaf = true)
      (leaves Sample.nested)
  ∧ is_Some (convertAttr (ES := Sample.enums) Sample.nested).
Proof.
  assert (∀ Name,
            stablehloEnumCases (EnumSchema := Sample.enums) Name
            ⊆ mhloEnumCases (EnumSchema := Sample.enums) Name) as Hsub.
  { intros [] x Hx; simpl in *; try exact Hx.
    change (x ∈ ["DEFAULT"; "HIGH"; "HIGHEST"] ++ ["PACKED_NIBBLE"]).
    apply elem_of_app. by left. }
  assert (Forall (λ leaf, isKnown (ES := Sample.enums) leaf = true)
            (leaves Sample.nested)) as Hknown.
  { simpl. repeat constructor. }
  split; [exact Hsub|split; [exact Hknown|]].
  exact (convertAttr_total_without_skew (ES := Sample.enums) Sample.nested
           Hsub Hknown).
Defined.

Lemma convertAttr_leafwise_nested :
  convertAttr (ES := Sample.enums) Sample.nested = Some Sample.nestedHlo
  ∧ Forall2 (λ leaf hloLeaf,
               convertAttr (ES := Sample.enums) leaf = Some hloLeaf)
      (leaves Sample.nested) (leaves Sample.nestedHlo).
Proof.
  split; [reflexivity|].
  exact (proj1 (convertAttr_leafwise (ES := Sample.enums) Sample.nested
                  Sample.nestedHlo eq_refl)).
Defined.

Lemma convertAttr_namespace_GE :
  convertAttr (ES := Sample.enums) Sample.direction_GE
  = Some (mhlo_EnumAttr ComparisonDirection 2)
  ∧ getNamespace (mhlo_EnumAttr ComparisonDirection 2) = "mhlo".
Proof.
  split; [reflexivity|].
  exact (proj1 (convertAttr_namespace (ES := Sample.enums)
                  Sample.direction_GE (mhlo_EnumAttr ComparisonDirection 2)
                  eq_refl)).
Defined.

Lemma matchAndRewrite_regions_zip_short :
  operations Sample.rewriter !! 4%nat = Some Sample.whileOp
  ∧ ∃ rewriter' hloOp op',
      matchAndRewrite (ES := Sample.enums) (OS := Sample.ops)
        (Sample.pattern "reduce") 4 [mkValue 5] Sample.rewriter
      = (success, rewriter')
      ∧ operations rewriter' !! 5%nat = Some hloOp
      ∧ operations rewriter' !! 4%nat = Some op'
      ∧ getRegions hloOp = [[mkBlock 4]]
      ∧ getRegions op' = [[]; [mkBlock 5]].
Proof.
  split; [reflexivity|].
  destruct (matchAndRewrite_regions_zip (ES := Sample.enums)
              (OS := Sample.ops) (Sample.pattern "reduce") 4 [mkValue 5]
              Sample.rewriter _ Sample.whileOp eq_refl eq_refl)
    as (hloOp & op' & Hnew & Hold & Hregions & Hleft & _).
  eexists _, hloOp, op'. split; [reflexivity|].
  split; [exact Hnew|]. split; [exact Hold|].
  split; [exact Hregions|exact Hleft].
Defined.


Lemma matchAndRewrite_attributes_clean_compare :
  operations Sample.rewriter !! 0%nat = Some Sample.compareOp
  ∧ ∃ rewriter' hloOp,
      matchAndRewrite (ES := Sample.enums) (OS := Sample.ops)
        (Sample.pattern "compare") 0 [mkValue 10; mkValue 11] Sample.rewriter
      = (success, rewriter')
      ∧ operations rewriter' !! 5%nat = Some hloOp
      ∧ (getAttrs hloOp).*1 = ["comparison_direction"]
      ∧ Forall (λ hloAttr, mentionsStablehlo hloAttr.2 = false)
          (getAttrs hloOp).
Proof.
  split; [reflexivity|].
  destruct (matchAndRewrite_attributes_clean (ES := Sample.enums)
              (OS := Sample.ops) (Sample.pattern "compare") 0
              [mkValue 10; mkValue 11] Sample.rewriter _ Sample.compareOp
              eq_refl eq_refl)
    as (hloOp & Hnew & Hnames & Hclean).
  eexists _, hloOp. split; [reflexivity|].
  split; [exact Hnew|]. split; [exact Hnames|exact Hclean].
Defined.

Lemma matchAndRewrite_independent_odd_then_case :
  2%nat ≠ 1%nat
  ∧ operations Sample.rewriter !! 1%nat = Some Sample.caseOp
  ∧ (matchAndRewrite (ES := Sample.enums) (OS := Sample.ops)
       (Sample.pattern "case") 1 [mkValue 12]
       (matchAndRewrite (ES := Sample.enums) (OS := Sample.ops)
          (Sample.pattern "add") 2 [mkValue 3; mkValue 4] Sample.rewriter).2).1
    = (matchAndRewrite (ES := Sample.enums) (OS := Sample.ops)
         (Sample.pattern "case") 1 [mkValue 12] Sample.rewriter).1.
Proof.
  assert (2%nat ≠ 1%nat) as Hne by discriminate.
  split; [exact Hne|split; [reflexivity|]].
  exact (proj1 (matchAndRewrite_independent (ES := Sample.enums)
                  (OS := Sample.ops) (Sample.pattern "add")
                  (Sample.pattern "case") 2 1 [mkValue 3; mkValue 4]
                  [mkValue 12] Sample.rewriter Sample.caseOp Hne eq_refl)).
Defined.

Lemma populate_covers_every_op_compare :
  getName Sample.compareOp ∈ GET_OP_LIST (OpSchema := Sample.ops)
  ∧ ∃ this,
      this ∈ populateStablehloToHloPatterns (OS := Sample.ops) []
               Sample.converter (mkContext 0)
      ∧ StablehloOpTy this = getName Sample.compareOp.
Proof.
  assert (getName Sample.compareOp ∈ GET_OP_LIST (OpSchema := Sample.ops))
    as Hin.
  { apply (bool_decide_unpack _). vm_compute. exact I. }
  split; [exact Hin|].
  destruct (populate_covers_every_op (ES := Sample.enums) (OS := Sample.ops)
              [] Sample.converter (mkContext 0) (getName Sample.compareOp) Hin)
    as (this & Hthis & Hkind & _).
  exists this. split; [exact Hthis|exact Hkind].
Defined.
